(** * The dynamic discovery shared informer factory of kcp

    A shallow embedding of [DynamicDiscoverySharedInformerFactory]
    (package [informer]): the factory struct, listener registration and
    dispatch, indexer registration, find-or-create of informers, the
    lister snapshot, one discovery pass with its reconciliation, and [Start].

    Go maps are [gmap]s.  The order in which [range] walks a map is left
    open by Go; it is a parameter of every function that ranges over a map
    (see [RangeOrder]).  Calls into client-go and apimachinery whose result
    the factory only inspects are gathered in [ClientGo]; what a pass reads
    from the workspace lister and from discovery is a [Discovery]. *)

From Stdlib Require Import String Ascii List ZArith.
From stdpp Require Import base option list strings gmap fin_maps fin_sets.

Local Open Scope string_scope.
Local Open Scope list_scope.

#[local] Set Warnings "-clear-no-such-hyp".

(** ** Data *)

(** [schema.GroupVersion] and [schema.GroupVersionResource]. *)
Record GroupVersion := mkGV { gvGroup : string; gvVersion : string }.

Record GVR := mkGVR { Group : string; Version : string; Resource : string }.

#[global] Instance GVR_eq_dec : EqDecision GVR.
Proof. solve_decision. Defined.

#[global] Instance GVR_countable : Countable GVR.
Proof.
  refine (inj_countable' (λ g, (Group g, Version g, Resource g))
                         (λ t, mkGVR t.1.1 t.1.2 t.2) _).
  by intros [].
Defined.

(** [gv.WithResource(name)]. *)
Definition WithResource (gv : GroupVersion) (name : string) : GVR :=
  mkGVR (gvGroup gv) (gvVersion gv) name.

(** Errors are values.  [ErrIndexerExists] is the one error the factory
    builds itself ([fmt.Errorf("indexer %q already exists", name)]); every
    other error is handed back by a collaborator. *)
Inductive error :=
| ErrIndexerExists (name : string)
| ErrExternal (msg : string).

#[global] Instance error_eq_dec : EqDecision error.
Proof. solve_decision. Defined.

(** A call that returns [(value, error)]. *)
Inductive result (A : Type) :=
| Ok (a : A)
| Err (e : error).
Arguments Ok {A} a.
Arguments Err {A} e.

(** Opaque capabilities are named by a number: a [cache.IndexFunc], a
    registered [GVREventHandler], a stop channel, the object an event
    carries. *)
Abbreviation IndexFunc := nat (only parsing).
Abbreviation GVREventHandler := nat (only parsing).
Abbreviation Chan := nat (only parsing).
Abbreviation Obj := nat (only parsing).

(** An informer built by [dynamicinformer.NewFilteredDynamicInformer]:
    [infId] is the identity of the object, [infGVR] the resource it was
    built for. *)
Record Informer := mkInformer { infId : nat; infGVR : GVR }.

#[global] Instance Informer_eq_dec : EqDecision Informer.
Proof. solve_decision. Defined.

(** [informer.Lister()]: the lister of one informer. *)
Inductive GenericLister := ListerOf (inf : Informer).

#[global] Instance GenericLister_eq_dec : EqDecision GenericLister.
Proof. solve_decision. Defined.

(** The struct.  [indexers] is [None] while the Go map is nil.  The lock
    fields have no content; the collaborators ([workspaceLister], [disco],
    [dynamicClient], [filterFunc], [pollInterval]) are the parameters
    [ClientGo] and [Discovery] below. *)
Record Factory := mkFactory {
  indexers : option (gmap string IndexFunc);
  handlers : list GVREventHandler;
  informers : gmap GVR Informer;
  startedInformers : gmap GVR bool;
  informerStops : gmap GVR Chan;
  terminating : bool
}.

(** What lives outside the struct: the allocation counters behind
    [NewFilteredDynamicInformer] and [make(chan struct{})], the goroutines
    launched by [go inf.Informer().Run(stop)], the channels closed so far
    (in the order of the [close] calls; closing a channel twice panics in
    Go and would show as a duplicate here), and the informers whose
    [HasSynced()] answers true. *)
Record Runtime := mkRuntime {
  nextInformer : nat;
  nextChan : nat;
  goroutines : list (Informer * Chan);
  closed : list Chan;
  synced : gset nat
}.

Record State := mkState { fac : Factory; rt : Runtime }.

(** Field updates. *)
Definition set_indexers (v : option (gmap string IndexFunc)) (d : Factory) : Factory :=
  mkFactory v (handlers d) (informers d) (startedInformers d) (informerStops d) (terminating d).
Definition set_handlers (v : list GVREventHandler) (d : Factory) : Factory :=
  mkFactory (indexers d) v (informers d) (startedInformers d) (informerStops d) (terminating d).
Definition set_informers (v : gmap GVR Informer) (d : Factory) : Factory :=
  mkFactory (indexers d) (handlers d) v (startedInformers d) (informerStops d) (terminating d).
Definition set_startedInformers (v : gmap GVR bool) (d : Factory) : Factory :=
  mkFactory (indexers d) (handlers d) (informers d) v (informerStops d) (terminating d).
Definition set_informerStops (v : gmap GVR Chan) (d : Factory) : Factory :=
  mkFactory (indexers d) (handlers d) (informers d) (startedInformers d) v (terminating d).

(** ** Iteration order of [range] over a map

    Every key exactly once, in an order Go does not fix. *)
Record RangeOrder := mkRangeOrder {
  range : ∀ (K : Type) `{Countable K} (V : Type), gmap K V → list (K * V);
  range_perm : ∀ (K : Type) `{Countable K} (V : Type) (m : gmap K V),
      range K V m ≡ₚ map_to_list m
}.
Arguments range _ {K _ _ V} m.

(** [for k := range m]: the keys alone. *)
Definition rangeKeys (ro : RangeOrder) `{Countable K} {V} (m : gmap K V) : list K :=
  (range ro m).*1.

(** One admissible order: the one [map_to_list] happens to give. *)
Definition mapOrder : RangeOrder :=
  mkRangeOrder (λ K _ _ V m, map_to_list m) (λ K _ _ V m, reflexivity _).

(** Another one: the reverse. *)
Definition revOrder : RangeOrder :=
  mkRangeOrder (λ K _ _ V m, rev (map_to_list m))
               (λ K _ _ V m, Permutation_sym (Permutation_rev _)).

(** ** Listeners *)

(** Go's builtin [copy(dst, src)]: overwrites the first
    [min(len(dst), len(src))] elements of [dst]. *)
Definition go_copy {A} (dst src : list A) : list A :=
  let n := min (length dst) (length src) in
  take n src ++ drop n dst.

(** [AddEventHandler]: [newHandlers] is declared nil, [copy] fills it from
    the loaded slice, the new handler is appended and the slice stored. *)
Definition AddEventHandler (handler : GVREventHandler) (d : Factory) : Factory :=
  let handlers0 := handlers d in
  let newHandlers : list GVREventHandler := [] in
  let newHandlers := go_copy newHandlers handlers0 in
  let newHandlers := newHandlers ++ [handler] in
  set_handlers newHandlers d.

(** A call received by a listener. *)
Inductive Call :=
| OnAdd (h : GVREventHandler) (gvr : GVR) (obj : Obj)
| OnUpdate (h : GVREventHandler) (gvr : GVR) (oldObj newObj : Obj)
| OnDelete (h : GVREventHandler) (gvr : GVR) (obj : Obj).

#[global] Instance Call_eq_dec : EqDecision Call.
Proof. solve_decision. Defined.

(** The three closures installed on every informer by
    [informerForResourceLockHeld]: each loads the handler slice at the time
    of the event and calls every element in order. *)
Definition AddFunc (d : Factory) (gvr : GVR) (obj : Obj) : list Call :=
  map (λ h, OnAdd h gvr obj) (handlers d).
Definition UpdateFunc (d : Factory) (gvr : GVR) (oldObj newObj : Obj) : list Call :=
  map (λ h, OnUpdate h gvr oldObj newObj) (handlers d).
Definition DeleteFunc (d : Factory) (gvr : GVR) (obj : Obj) : list Call :=
  map (λ h, OnDelete h gvr obj) (handlers d).

(** The listener a call went to. *)
Definition callee (c : Call) : GVREventHandler :=
  match c with OnAdd h _ _ | OnUpdate h _ _ _ | OnDelete h _ _ => h end.

(** How many of [calls] went to [h]. *)
Definition callsTo (h : GVREventHandler) (calls : list Call) : nat :=
  length (filter (λ c, callee c = h) calls).

(** ** Indexers *)

(** The [range] loop of [AddIndexers] over the entries still to visit;
    [cur] is [d.indexers]. *)
Fixpoint addIndexersLoop (entries : list (string * IndexFunc))
    (cur : gmap string IndexFunc) : option error * gmap string IndexFunc :=
  match entries with
  | [] => (None, cur)
  | (name, indexer) :: rest =>
      match cur !! name with
      | Some _ => (Some (ErrIndexerExists name), cur)
      | None => addIndexersLoop rest (<[name := indexer]> cur)
      end
  end.

(** [AddIndexers]: a nil [d.indexers] is first replaced by an empty map. *)
Definition AddIndexers (ro : RangeOrder) (arg : gmap string IndexFunc) (d : Factory)
    : option error * Factory :=
  let cur := match indexers d with None => ∅ | Some m => m end in
  let '(err, cur') := addIndexersLoop (range ro arg) cur in
  (err, set_indexers (Some cur') d).

(** ** The constructor *)

Definition NewDynamicDiscoverySharedInformerFactory : Factory :=
  mkFactory None [] ∅ ∅ ∅ false.

Definition initRuntime : Runtime := mkRuntime 0 0 [] [] ∅.

Definition initState : State := mkState NewDynamicDiscoverySharedInformerFactory initRuntime.

(** ** Collaborators *)

(** The calls into client-go and apimachinery whose outcome the factory
    branches on: [schema.ParseGroupVersion], and the
    [inf.Informer().AddIndexers(d.indexers)] made on the informer that
    [informerForResourceLockHeld] has just built. *)
Record ClientGo := mkClientGo {
  ParseGroupVersion : string → result GroupVersion;
  informerAddIndexers : Informer → option (gmap string IndexFunc) → option error
}.

(** [strings.Count(s, "/")]. *)
Fixpoint countSlash (s : string) : nat :=
  match s with
  | EmptyString => 0
  | String c s' => (if Ascii.eqb c "/" then 1 else 0) + countSlash s'
  end.

(** The text before and after the first slash. *)
Fixpoint splitSlash (s : string) : string * string :=
  match s with
  | EmptyString => (EmptyString, EmptyString)
  | String c s' =>
      if Ascii.eqb c "/" then (EmptyString, s')
      else let '(a, b) := splitSlash s' in (String c a, b)
  end.

(** apimachinery's [ParseGroupVersion]: the empty string and "/" give the
    empty group-version, no slash gives a version in the core group, one
    slash splits group from version, more is an error. *)
Definition apimachineryParseGroupVersion (gv : string) : result GroupVersion :=
  if bool_decide (gv = "" ∨ gv = "/") then Ok (mkGV "" "")
  else match countSlash gv with
       | 0 => Ok (mkGV "" gv)
       | 1 => let '(g, v) := splitSlash gv in Ok (mkGV g v)
       | _ => Err (ErrExternal "unexpected GroupVersion string")
       end.

(** client-go's [AddIndexers] on an informer that has not started and
    holds no items: an error when a name is already an index of the
    informer.  The informer is built with the single index
    [cache.NamespaceIndex], whose name is "namespace". *)
Definition NamespaceIndex : string := "namespace".

Definition clientgoAddIndexers (_ : Informer) (ixs : option (gmap string IndexFunc))
    : option error :=
  match ixs with
  | None => None
  | Some m =>
      match m !! NamespaceIndex with
      | Some _ => Some (ErrExternal "indexer conflict")
      | None => None
      end
  end.

Definition clientGo : ClientGo :=
  mkClientGo apimachineryParseGroupVersion clientgoAddIndexers.

(** One entry of discovery: [metav1.APIResource] and
    [metav1.APIResourceList], with the fields the pass reads. *)
Record APIResource := mkAPIResource {
  Name : string;
  Namespaced : bool;
  Verbs : list string
}.

Record APIResourceList := mkAPIResourceList {
  GroupVersionOf : string;
  APIResources : list APIResource
}.

(** A [ClusterWorkspace]: the logical cluster it lives in and its name. *)
Record ClusterWorkspace := mkClusterWorkspace {
  wsClusterName : string;
  wsName : string
}.

(** [logicalcluster.From(ws).Join(ws.Name).String()]. *)
Definition logicalClusterName (ws : ClusterWorkspace) : string :=
  (wsClusterName ws ++ ":" ++ wsName ws)%string.

(** What one pass reads: the answer of [workspaceLister.List] and, per
    logical cluster, the answer of [ServerPreferredResources]. *)
Record Discovery := mkDiscovery {
  ListWorkspaces : result (list ClusterWorkspace);
  ServerPreferredResources : string → result (list APIResourceList)
}.

(** ** Runtime primitives *)

Definition NewFilteredDynamicInformer (gvr : GVR) (r : Runtime) : Informer * Runtime :=
  (mkInformer (nextInformer r) gvr,
   mkRuntime (S (nextInformer r)) (nextChan r) (goroutines r) (closed r) (synced r)).

Definition makeChan (r : Runtime) : Chan * Runtime :=
  (nextChan r,
   mkRuntime (nextInformer r) (S (nextChan r)) (goroutines r) (closed r) (synced r)).

Definition goRun (inf : Informer) (stop : Chan) (r : Runtime) : Runtime :=
  mkRuntime (nextInformer r) (nextChan r) (goroutines r ++ [(inf, stop)]) (closed r) (synced r).

Definition closeChan (c : Chan) (r : Runtime) : Runtime :=
  mkRuntime (nextInformer r) (nextChan r) (goroutines r) (closed r ++ [c]) (synced r).

(** [informer.Informer().HasSynced()]. *)
Definition HasSynced (r : Runtime) (inf : Informer) : bool :=
  bool_decide (infId inf ∈ synced r).

(** The informer [inf] completes its initial list (done by its goroutine,
    not by the factory). *)
Definition initialSyncDone (inf : Informer) (r : Runtime) : Runtime :=
  mkRuntime (nextInformer r) (nextChan r) (goroutines r) (closed r) ({[infId inf]} ∪ synced r).

(** ** Find-or-create *)

(** [informerForResourceLockHeld]: the informer stored for [gvr], or a new
    one.  A new informer is stored only when adding the factory's indexers
    to it succeeds; when that fails the informer that was built is dropped
    and the error returned.  (The event handler installed on the new
    informer is the three closures [AddFunc], [UpdateFunc], [DeleteFunc]
    above, behind client-go's filter.) *)
Definition informerForResourceLockHeld (cg : ClientGo) (gvr : GVR) (s : State)
    : result Informer * State :=
  match informers (fac s) !! gvr with
  | Some inf => (Ok inf, s)
  | None =>
      let '(inf, r) := NewFilteredDynamicInformer gvr (rt s) in
      match informerAddIndexers cg inf (indexers (fac s)) with
      | Some err => (Err err, mkState (fac s) r)
      | None => (Ok inf, mkState (set_informers (<[gvr := inf]> (informers (fac s))) (fac s)) r)
      end
  end.

(** The part of [InformerForResource] under the read lock: the lookup. *)
Definition InformerForResource_RLocked (gvr : GVR) (s : State) : option Informer :=
  informers (fac s) !! gvr.

(** [InformerForResource] when nothing runs between its two critical
    sections. *)
Definition InformerForResource (cg : ClientGo) (gvr : GVR) (s : State)
    : result Informer * State :=
  match InformerForResource_RLocked gvr s with
  | Some inf => (Ok inf, s)
  | None => informerForResourceLockHeld cg gvr s
  end.

(** ** Listers *)

(** [for gvr, informer := range d.informers]. *)
Fixpoint listersLoop (r : Runtime) (entries : list (GVR * Informer))
    (listers : gmap GVR GenericLister) (notSynced : list GVR)
    : gmap GVR GenericLister * list GVR :=
  match entries with
  | [] => (listers, notSynced)
  | (gvr, informer) :: rest =>
      if negb (HasSynced r informer)
      then listersLoop r rest listers (notSynced ++ [gvr])
      else listersLoop r rest (<[gvr := ListerOf informer]> listers) notSynced
  end.

(** [Listers]: [listers] starts as an empty map and [notSynced] as nil;
    both are returned as they are when the factory is terminating. *)
Definition Listers (ro : RangeOrder) (s : State) : gmap GVR GenericLister * list GVR :=
  if terminating (fac s) then (∅, [])
  else listersLoop (rt s) (range ro (informers (fac s))) ∅ [].

(** ** One discovery pass *)

(** [strings.Contains(s, substr)]. *)
Fixpoint Contains (s substr : string) : bool :=
  String.prefix substr s ||
  match s with
  | EmptyString => false
  | String _ s' => Contains s' substr
  end.

(** [sets.NewString(items...)] and [HasAll]. *)
Definition NewString (items : list string) : gset string := list_to_set items.

Definition HasAll (s : gset string) (items : list string) : bool :=
  forallb (λ item, bool_decide (item ∈ s)) items.

(** The three [continue] guards of the innermost loop, in source order. *)
Definition skipped (ai : APIResource) : bool :=
  if Contains (Name ai) "/" then true
  else if negb (Namespaced ai) then true
  else if negb (HasAll (NewString (Verbs ai)) ["list"; "watch"]) then true
  else false.

(** [for _, ai := range r.APIResources]. *)
Fixpoint resourcesLoop (gv : GroupVersion) (ais : list APIResource)
    (latest : gmap GVR unit) : gmap GVR unit :=
  match ais with
  | [] => latest
  | ai :: rest =>
      let gvr := WithResource gv (Name ai) in
      if skipped ai then resourcesLoop gv rest latest
      else resourcesLoop gv rest (<[gvr := tt]> latest)
  end.

(** [for _, r := range rs]. *)
Fixpoint listsLoop (cg : ClientGo) (rs : list APIResourceList)
    (latest : gmap GVR unit) : result (gmap GVR unit) :=
  match rs with
  | [] => Ok latest
  | r :: rest =>
      match ParseGroupVersion cg (GroupVersionOf r) with
      | Err err => Err err
      | Ok gv => listsLoop cg rest (resourcesLoop gv (APIResources r) latest)
      end
  end.

(** [for i := range workspaces]. *)
Fixpoint workspacesLoop (cg : ClientGo) (disco : Discovery)
    (workspaces : list ClusterWorkspace) (latest : gmap GVR unit)
    : result (gmap GVR unit) :=
  match workspaces with
  | [] => Ok latest
  | ws :: rest =>
      match ServerPreferredResources disco (logicalClusterName ws) with
      | Err err => Err err
      | Ok rs =>
          match listsLoop cg rs latest with
          | Err err => Err err
          | Ok latest' => workspacesLoop cg disco rest latest'
          end
      end
  end.

(** Lines 307-350 of [discoverTypes]: the set [latest], or the first
    error. *)
Definition discover (cg : ClientGo) (disco : Discovery) : result (gmap GVR unit) :=
  match ListWorkspaces disco with
  | Err err => Err err
  | Ok workspaces => workspacesLoop cg disco workspaces ∅
  end.

(** The pinned keys. *)
Definition crdGVR : GVR :=
  WithResource (mkGV "apiextensions.k8s.io" "v1") "customresourcedefinitions".
Definition apibindingsGVR : GVR :=
  WithResource (mkGV "apis.kcp.dev" "v1alpha1") "apibindings".

Definition pinned (gvr : GVR) : bool :=
  bool_decide (gvr = crdGVR) || bool_decide (gvr = apibindingsGVR).

(** [calculateInformersLockHeld]: each loop appends the keys that pass its
    test, in iteration order. *)
Definition calculateInformersLockHeld (ro : RangeOrder) (d : Factory)
    (latest : gmap GVR unit) : list GVR * list GVR :=
  let toAdd := filter (λ gvr, informers d !! gvr = None) (rangeKeys ro latest) in
  let toRemove :=
    filter (λ gvr, pinned gvr = false ∧ latest !! gvr = None)
           (rangeKeys ro (informers d)) in
  (toAdd, toRemove).

(** Lines 383-388, and again 421-426: a stop channel is made for the
    informer, the informer is run on it in a goroutine, and channel and
    started flag are stored under the key. *)
Definition runInformer (gvr : GVR) (inf : Informer) (s : State) : State :=
  let '(stop, r) := makeChan (rt s) in
  let r := goRun inf stop r in
  let d := set_informerStops (<[gvr := stop]> (informerStops (fac s))) (fac s) in
  let d := set_startedInformers (<[gvr := true]> (startedInformers d)) d in
  mkState d r.

(** [for i := range informersToAdd]. *)
Fixpoint addLoop (cg : ClientGo) (informersToAdd : list GVR) (s : State)
    : option error * State :=
  match informersToAdd with
  | [] => (None, s)
  | gvr :: rest =>
      match informerForResourceLockHeld cg gvr s with
      | (Err err, s1) => (Some err, s1)
      | (Ok inf, s1) => addLoop cg rest (runInformer gvr inf s1)
      end
  end.

(** Lines 394-405: the stop channel of the key, when there is one, is
    closed, and the key is deleted from the three maps. *)
Definition removeInformer (gvr : GVR) (s : State) : State :=
  let r := match informerStops (fac s) !! gvr with
           | Some stop => closeChan stop (rt s)
           | None => rt s
           end in
  let d := set_informers (delete gvr (informers (fac s))) (fac s) in
  let d := set_informerStops (delete gvr (informerStops d)) d in
  let d := set_startedInformers (delete gvr (startedInformers d)) d in
  mkState d r.

(** [for i := range informersToRemove]. *)
Fixpoint removeLoop (informersToRemove : list GVR) (s : State) : State :=
  match informersToRemove with
  | [] => s
  | gvr :: rest => removeLoop rest (removeInformer gvr s)
  end.

Definition bothEmpty (toAdd toRemove : list GVR) : bool :=
  bool_decide (length toAdd = 0 ∧ length toRemove = 0).

(** Lines 362-408 of [discoverTypes]: the section under the write lock. *)
Definition discoverTypes_Locked (ro : RangeOrder) (cg : ClientGo)
    (latest : gmap GVR unit) (s : State) : option error * State :=
  let '(informersToAdd, informersToRemove) :=
    calculateInformersLockHeld ro (fac s) latest in
  if bothEmpty informersToAdd informersToRemove then (None, s)
  else
    match addLoop cg informersToAdd s with
    | (Some err, s1) => (Some err, s1)
    | (None, s1) => (None, removeLoop informersToRemove s1)
    end.

(** Lines 352-359: the comparison under the read lock; [true] when the
    pass goes on to take the write lock. *)
Definition discoverTypes_RLocked (ro : RangeOrder) (latest : gmap GVR unit)
    (s : State) : bool :=
  let '(informersToAdd, informersToRemove) :=
    calculateInformersLockHeld ro (fac s) latest in
  negb (bothEmpty informersToAdd informersToRemove).

(** The reconciliation of one pass against [latest], nothing running
    between the two critical sections. *)
Definition reconcile (ro : RangeOrder) (cg : ClientGo) (latest : gmap GVR unit)
    (s : State) : option error * State :=
  if discoverTypes_RLocked ro latest s
  then discoverTypes_Locked ro cg latest s
  else (None, s).

(** [discoverTypes]. *)
Definition discoverTypes (ro : RangeOrder) (cg : ClientGo) (disco : Discovery)
    (s : State) : option error * State :=
  match discover cg disco with
  | Err err => (Some err, s)
  | Ok latest => reconcile ro cg latest s
  end.

(** ** Start *)

(** [for gvr, informer := range d.informers]; a key absent from
    [startedInformers] reads as false. *)
Fixpoint startLoop (entries : list (GVR * Informer)) (s : State) : State :=
  match entries with
  | [] => s
  | (gvr, informer) :: rest =>
      if negb (default false (startedInformers (fac s) !! gvr))
      then startLoop rest (runInformer gvr informer s)
      else startLoop rest s
  end.

Definition Start (ro : RangeOrder) (s : State) : State :=
  startLoop (range ro (informers (fac s))) s.

(** ** Vocabulary of the discovery claims *)

(** A descriptor passes the three guards: its name has no slash, it is
    namespaced, and its verbs include list and watch. *)
Definition observable (ai : APIResource) : Prop :=
  Contains (Name ai) "/" = false ∧ Namespaced ai = true ∧
  "list" ∈ Verbs ai ∧ "watch" ∈ Verbs ai.

(** Some workspace's discovery reports the descriptor [ai] under a
    group-version that makes it the type [gvr]. *)
Definition reports (cg : ClientGo) (disco : Discovery) (gvr : GVR) (ai : APIResource) : Prop :=
  ∃ workspaces ws rs r gv,
    ListWorkspaces disco = Ok workspaces ∧ ws ∈ workspaces ∧
    ServerPreferredResources disco (logicalClusterName ws) = Ok rs ∧ r ∈ rs ∧
    ParseGroupVersion cg (GroupVersionOf r) = Ok gv ∧
    ai ∈ APIResources r ∧ gvr = WithResource gv (Name ai).

(** The claim C3 as the specification words it: membership in the
    discovered set is equivalent to a reported descriptor being namespaced
    with list and watch among its verbs. *)
Definition included_iff_namespaced_list_watch (cg : ClientGo) (disco : Discovery) : Prop :=
  ∀ latest, discover cg disco = Ok latest →
  ∀ gvr, is_Some (latest !! gvr) ↔
    ∃ ai, reports cg disco gvr ai ∧
          Namespaced ai = true ∧ "list" ∈ Verbs ai ∧ "watch" ∈ Verbs ai.

(** ** Vocabulary of the reconciliation claims *)

(** The state after a new informer for [gvr] has been built and stored. *)
Definition stored (gvr : GVR) (s : State) : State :=
  mkState (set_informers (<[gvr := mkInformer (nextInformer (rt s)) gvr]> (informers (fac s)))
                         (fac s))
          (NewFilteredDynamicInformer gvr (rt s)).2.

(** What one round of the add loop does once the informer is new: the
    informer is built and stored, then run. *)
Definition added (gvr : GVR) (s : State) : State :=
  runInformer gvr (mkInformer (nextInformer (rt s)) gvr) (stored gvr s).

(** The entry under which a key of the add loop ends up: a new informer
    built for that key, a new stop channel on which that informer runs,
    and the started flag. *)
Definition addedEntry (s s' : State) (k : GVR) : Prop :=
  ∃ inf stop,
    informers (fac s') !! k = Some inf ∧ infGVR inf = k ∧
    (nextInformer (rt s) ≤ infId inf < nextInformer (rt s'))%nat ∧
    informerStops (fac s') !! k = Some stop ∧
    (nextChan (rt s) ≤ stop < nextChan (rt s'))%nat ∧
    startedInformers (fac s') !! k = Some true ∧
    (inf, stop) ∈ goroutines (rt s').

(** The entries of a key are the same in two states. *)
Definition sameEntry (s s' : State) (k : GVR) : Prop :=
  informers (fac s') !! k = informers (fac s) !! k ∧
  informerStops (fac s') !! k = informerStops (fac s) !! k ∧
  startedInformers (fac s') !! k = startedInformers (fac s) !! k.

(** The discovered set with the given keys. *)
Definition discovered (keys : list GVR) : gmap GVR unit :=
  foldr (λ k m, <[k := tt]> m) ∅ keys.

(** C2 as the specification words it, in one of its consequences: when
    building an informer fails, every key of [toRemove] has been removed
    all the same. *)
Definition failure_does_not_abort (ro : RangeOrder) (cg : ClientGo)
    (latest : gmap GVR unit) (s : State) : Prop :=
  let toRemove := (calculateInformersLockHeld ro (fac s) latest).2 in
  let s' := (reconcile ro cg latest s).2 in
  ∀ err, (reconcile ro cg latest s).1 = Some err →
    ∀ k, k ∈ toRemove → informers (fac s') !! k = None.

(** C5 as the specification words it: whatever the first reconciliation
    returned, the second one against the same set finds nothing to add
    and nothing to remove. *)
Definition second_pass_idle (ro1 ro2 : RangeOrder) (cg : ClientGo)
    (latest : gmap GVR unit) (s : State) : Prop :=
  let s1 := (reconcile ro1 cg latest s).2 in
  calculateInformersLockHeld ro2 (fac s1) latest = ([], []).

(** C6 as the specification words it, for any registry: after the two
    reconciliations the stored informers are exactly those of B and C, A
    had a stop channel and it is closed, A has no entry, B is as it was
    and C is new. *)
Definition converges_to_exactly (ro1 ro2 : RangeOrder) (cg : ClientGo)
    (A B C : GVR) (s0 : State) : Prop :=
  let s1 := (reconcile ro1 cg (discovered [A; B]) s0).2 in
  let s2 := (reconcile ro2 cg (discovered [B; C]) s1).2 in
  (∀ k, is_Some (informers (fac s2) !! k) ↔ k = B ∨ k = C) ∧
  (∃ c, informerStops (fac s1) !! A = Some c ∧ c ∈ closed (rt s2)) ∧
  informers (fac s2) !! A = None ∧
  sameEntry s1 s2 B ∧ addedEntry s1 s2 C.

(** ** Well-formed states

    What the operations of the factory keep true of the struct and of the
    goroutines it has launched. *)

Record wf (s : State) : Prop := mkWf {
  (** a stored informer was built for its key *)
  wf_informer k inf :
    informers (fac s) !! k = Some inf →
    infGVR inf = k ∧ (infId inf < nextInformer (rt s))%nat;
  (** a stored stop channel is open and is the one its informer runs on *)
  wf_stop k c :
    informerStops (fac s) !! k = Some c →
    (c ∉ closed (rt s)) ∧
    (∃ inf, informers (fac s) !! k = Some inf ∧ (inf, c) ∈ goroutines (rt s));
  (** the started flag is set exactly where a stop channel is stored *)
  wf_started k :
    (default false (startedInformers (fac s) !! k) = true) ↔
    is_Some (informerStops (fac s) !! k);
  (** a goroutine either has been told to stop or runs the informer
      stored for its key, on the stop channel stored for its key *)
  wf_goroutine inf c :
    (inf, c) ∈ goroutines (rt s) →
    (c < nextChan (rt s))%nat ∧
    (c ∈ closed (rt s) ∨
     (informers (fac s) !! infGVR inf = Some inf ∧
      informerStops (fac s) !! infGVR inf = Some c));
  (** every goroutine has a stop channel of its own *)
  wf_chans : NoDup (goroutines (rt s)).*2;
  (** no channel has been closed twice, and only channels of goroutines
      have been closed *)
  wf_closed : NoDup (closed (rt s));
  wf_closed_chan c : c ∈ closed (rt s) → c ∈ (goroutines (rt s)).*2
}.

(** ** Interleavings

    Every critical section of the factory is one atomic step; the steps of
    concurrent callers interleave in any order.  The sections that only
    read ([InformerForResource_RLocked], [discoverTypes_RLocked],
    [Listers]) leave the state alone and are not steps. *)
Inductive Step :=
| StepInformerForResource (gvr : GVR)
    (** [InformerForResource] from the write lock on *)
| StepDiscoverTypes (ro : RangeOrder) (latest : gmap GVR unit)
    (** [discoverTypes] from the write lock on *)
| StepStart (ro : RangeOrder)
| StepAddIndexers (ro : RangeOrder) (arg : gmap string IndexFunc)
| StepAddEventHandler (handler : GVREventHandler)
| StepSynced (inf : Informer)
    (** an informer finishes its initial list *).

Definition step (cg : ClientGo) (st : Step) (s : State) : State :=
  match st with
  | StepInformerForResource gvr => (informerForResourceLockHeld cg gvr s).2
  | StepDiscoverTypes ro latest => (discoverTypes_Locked ro cg latest s).2
  | StepStart ro => Start ro s
  | StepAddIndexers ro arg => mkState (AddIndexers ro arg (fac s)).2 (rt s)
  | StepAddEventHandler handler => mkState (AddEventHandler handler (fac s)) (rt s)
  | StepSynced inf => mkState (fac s) (initialSyncDone inf (rt s))
  end.

Definition run (cg : ClientGo) (steps : list Step) (s : State) : State :=
  foldl (λ s st, step cg st s) s steps.

(** ** Instances *)

Definition deployments : GVR := mkGVR "apps" "v1" "deployments".
Definition configmaps : GVR := mkGVR "" "v1" "configmaps".
Definition secrets : GVR := mkGVR "" "v1" "secrets".
Definition widgets : GVR := mkGVR "example.io" "v1" "widgets".

(** A factory on which the index name of every new informer has been
    registered, so that no informer can be built. *)
Definition namespaceIndexer : gmap string IndexFunc := {[ NamespaceIndex := 7 ]}.

(** One workspace whose core group reports [pods] and the subresource
    [pods/log], both namespaced, both with list and watch. *)
Definition subresourceDiscovery : Discovery :=
  mkDiscovery
    (Ok [mkClusterWorkspace "root" "org"])
    (λ _, Ok [mkAPIResourceList "v1"
                [mkAPIResource "pods" true ["get"; "list"; "watch"];
                 mkAPIResource "pods/log" true ["get"; "list"; "watch"]]]).

(** A discovery in which the second of two workspaces cannot be
    reached. *)
Definition secondTenantFails : Discovery :=
  mkDiscovery
    (Ok [mkClusterWorkspace "root" "a"; mkClusterWorkspace "root" "b"])
    (λ name, if String.eqb name "root:b"
             then Err (ErrExternal "the server is currently unable to handle the request")
             else Ok [mkAPIResourceList "v1"
                        [mkAPIResource "secrets" true ["get"; "list"; "watch"]]]).

(** The informers of [deployments] and [configmaps] run. *)
Definition twoRunning : State :=
  run clientGo [StepDiscoverTypes mapOrder (discovered [deployments; configmaps])] initState.

(** The informers of [customresourcedefinitions] and of [deployments]
    run. *)
Definition crdRunning : State :=
  run clientGo [StepInformerForResource crdGVR; StepStart mapOrder;
                StepDiscoverTypes mapOrder (discovered [deployments])] initState.

(** The informer of [widgets] runs; then the index name "namespace" is
    registered on the factory. *)
Definition widgetsRunning : State :=
  run clientGo [StepInformerForResource widgets; StepStart mapOrder;
                StepAddIndexers mapOrder namespaceIndexer] initState.

(** A registry whose informers for [customresourcedefinitions] and for
    [deployments] were obtained through [InformerForResource] and never
    started. *)
Definition crdAndDeployments : State :=
  run clientGo [StepInformerForResource crdGVR; StepInformerForResource deployments]
      initState.

(** ** Polling

    [StartPolling] discovers at once, again every second until a pass
    returns no error, and from then on at every tick of [pollInterval]
    until the context is done; then every stored stop channel is closed.
    Time is a schedule: the answers the passes get, one per attempt or
    tick, each with the iteration order of that pass; the schedule ends
    where the context is done. *)

(** [wait.PollImmediateInfiniteWithContext] on the closure of lines
    265-271: the closure never returns an error, and returns true after
    the first pass without error.  The result is false when the context
    is done before that. *)
Fixpoint pollImmediate (cg : ClientGo) (attempts : list (RangeOrder * Discovery))
    (s : State) : bool * State :=
  match attempts with
  | [] => (false, s)
  | (ro, disco) :: rest =>
      match discoverTypes ro cg disco s with
      | (Some _, s1) => pollImmediate cg rest s1
      | (None, s1) => (true, s1)
      end
  end.

(** [case <-ticker.C]: a pass per tick, its error logged and dropped. *)
Fixpoint tickerLoop (cg : ClientGo) (ticks : list (RangeOrder * Discovery))
    (s : State) : State :=
  match ticks with
  | [] => s
  | (ro, disco) :: rest => tickerLoop cg rest (discoverTypes ro cg disco s).2
  end.

(** [for _, stopCh := range d.informerStops { close(stopCh) }]. *)
Fixpoint teardownLoop (stops : list (GVR * Chan)) (r : Runtime) : Runtime :=
  match stops with
  | [] => r
  | (_, stopCh) :: rest => teardownLoop rest (closeChan stopCh r)
  end.

(** The deferred function of the polling goroutine (lines 279-290):
    the channels are closed, nothing is deleted from the maps. *)
Definition teardown (ro : RangeOrder) (s : State) : State :=
  mkState (fac s) (teardownLoop (range ro (informerStops (fac s))) (rt s)).

(** [StartPolling], nothing else running in between: when the context is
    done during the first phase it returns at once, without ticker and
    without teardown. *)
Definition StartPolling (cg : ClientGo) (attempts ticks : list (RangeOrder * Discovery))
    (roDone : RangeOrder) (s : State) : State :=
  match pollImmediate cg attempts s with
  | (false, s1) => s1
  | (true, s1) => teardown roDone (tickerLoop cg ticks s1)
  end.

(** ** Options of the embedded etcd (package [options]) *)

Record EmbeddedEtcd := mkEmbeddedEtcd {
  Enabled : bool;
  Directory : string;
  PeerPort : string;
  ClientPort : string;
  ListenMetricsURLs : list string;
  WalSizeBytes : Z;
  QuotaBackendBytes : Z;
  ForceNewCluster : bool
}.

(** [NewEmbeddedEtcd]; [join] is [filepath.Join]. *)
Definition NewEmbeddedEtcd (join : string → string → string) (rootDir : string)
    : EmbeddedEtcd :=
  mkEmbeddedEtcd false (join rootDir "etcd-server") "2380" "2379" [] 0 0 false.

(** The errors [Validate] builds. *)
Inductive validationError :=
| PeerPortMissing
| ClientPortMissing
| MetricsURLsParseFailure (err : error).

(** [Validate]; [NewURLs] is [etcdtypes.NewURLs], of which only the error
    is looked at. *)
Definition Validate (NewURLs : list string → option error) (e : EmbeddedEtcd)
    : list validationError :=
  let errs := [] in
  if Enabled e then
    let errs := if bool_decide (PeerPort e = "") then errs ++ [PeerPortMissing] else errs in
    let errs := if bool_decide (ClientPort e = "") then errs ++ [ClientPortMissing] else errs in
    let errs :=
      if bool_decide (0 < length (ListenMetricsURLs e))%nat then
        match NewURLs (ListenMetricsURLs e) with
        | Some err => errs ++ [MetricsURLsParseFailure err]
        | None => errs
        end
      else errs in
    errs
  else errs.

(** ** The shard handler (package [proxy]) *)

(** [strings.TrimLeft(s, cutset)]: the leading characters that occur in
    [cutset] are removed. *)
Fixpoint TrimLeft (s cutset : string) : string :=
  match s with
  | EmptyString => EmptyString
  | String c s' =>
      if bool_decide (c ∈ list_ascii_of_string cutset) then TrimLeft s' cutset else s
  end.

(** [strings.SplitN(s, "/", n)] for [n >= 0]: at most [n] pieces, the last
    one the unsplit remainder; nil for [n = 0]. *)
Fixpoint SplitN_slash (s : string) (n : nat) : list string :=
  match n with
  | 0 => []
  | S n' =>
      match n' with
      | 0 => [s]
      | S _ =>
          if Contains s "/"
          then let '(a, b) := splitSlash s in a :: SplitN_slash b n'
          else [s]
      end
  end.

(** What the handler answers: [http.NotFound],
    [responsewriters.InternalError], [responsewriters.Forbidden], or the
    request handed to [proxy] with the shard URL in its context. *)
Inductive Response (URL : Type) :=
| NotFound
| InternalError (err : error)
| Forbidden
| Proxied (shardURL : URL).
Arguments NotFound {URL}.
Arguments InternalError {URL} err.
Arguments Forbidden {URL}.
Arguments Proxied {URL} shardURL.

(** The collaborators of the handler: [tenancyhelper.IsValidCluster],
    [index.Lookup] and [url.Parse]. *)
Record ShardDeps (URL : Type) := mkShardDeps {
  IsValidCluster : string → bool;
  IndexLookup : string → option string;
  urlParse : string → result URL
}.
Arguments mkShardDeps {URL} _ _ _.
Arguments IsValidCluster {URL} _ _.
Arguments IndexLookup {URL} _ _.
Arguments urlParse {URL} _ _.

(** [shardHandler] on a request with path [path]; [attributes] is the
    answer of [filters.GetAuthorizerAttributes] for its context. *)
Definition shardHandler {URL} (deps : ShardDeps URL) (attributes : option error)
    (path : string) : Response URL :=
  let cs := SplitN_slash (TrimLeft path "/") 3 in
  if bool_decide (length cs ≠ 3 ∨ cs !! 0%nat ≠ Some "clusters") then NotFound
  else
    match attributes with
    | Some err => InternalError err
    | None =>
        let clusterName := default "" (cs !! 1%nat) in
        if negb (IsValidCluster deps clusterName) then Forbidden
        else
          match IndexLookup deps clusterName with
          | None => Forbidden
          | Some shardURLString =>
              match urlParse deps shardURLString with
              | Err err => InternalError err
              | Ok shardURL => Proxied shardURL
              end
          end
    end.

(** ** Further instances *)

(** No workspace at all. *)
Definition noWorkspaces : Discovery := mkDiscovery (Ok []) (λ _, Ok []).

(** The informer of [deployments] has been obtained through
    [InformerForResource] and not started. *)
Definition deploymentsStored : State :=
  run clientGo [StepInformerForResource deployments] initState.

(** An index that knows one cluster, with shard URLs kept as strings. *)
Definition oneShard : ShardDeps string :=
  mkShardDeps (λ name, negb (String.eqb name "*"))
              (λ name, if String.eqb name "root:org" then Some "https://shard-0:6443" else None)
              Ok.

(** ** Everything that changes the state

    A critical section of a caller, or the teardown that the polling
    goroutine runs when its context is done: the one shutdown the factory
    has. *)
Inductive Op :=
| OpStep (st : Step)
| OpTeardown (ro : RangeOrder).

Definition runOp (cg : ClientGo) (op : Op) (s : State) : State :=
  match op with
  | OpStep st => step cg st s
  | OpTeardown ro => teardown ro s
  end.

Definition runOps (cg : ClientGo) (ops : list Op) (s : State) : State :=
  foldl (λ s op, runOp cg op s) s ops.

(** A new factory discovers [pods], the informer of [pods] finishes its
    initial list, and the polling context is done: the teardown runs. *)
Definition pods : GVR := mkGVR "" "v1" "pods".

Definition podsSyncedThenShutDown : State :=
  let s1 := (discoverTypes mapOrder clientGo subresourceDiscovery initState).2 in
  let s2 := mkState (fac s1) (initialSyncDone (mkInformer 0 pods) (rt s1)) in
  teardown mapOrder s2.

(** The same without the initial list having finished. *)
Definition podsShutDownBeforeSync : State :=
  teardown mapOrder (discoverTypes mapOrder clientGo subresourceDiscovery initState).2.

(** * Properties *)

(** ** Iteration order *)

Section range_facts.
Context (ro : RangeOrder) `{Countable K} {V : Type}.
Implicit Types m : gmap K V.

Lemma range_NoDup_fst m : NoDup (range ro m).*1.
Proof. rewrite (range_perm ro). apply NoDup_fst_map_to_list. Qed.

Lemma elem_of_range m k v : (k, v) ∈ range ro m ↔ m !! k = Some v.
Proof. rewrite (range_perm ro). apply elem_of_map_to_list. Qed.

Lemma list_to_map_range m : list_to_map (range ro m) = m.
Proof.
  rewrite <- (list_to_map_to_list m) at 2.
  apply list_to_map_proper; [apply range_NoDup_fst | apply range_perm].
Qed.

Lemma rangeKeys_NoDup m : NoDup (rangeKeys ro m).
Proof. apply range_NoDup_fst. Qed.

Lemma elem_of_rangeKeys m k : k ∈ rangeKeys ro m ↔ is_Some (m !! k).
Proof.
  unfold rangeKeys. rewrite list_elem_of_fmap. split.
  - intros [[k' v] [-> Hin]]. apply elem_of_range in Hin. by exists v.
  - intros [v Hv]. exists (k, v). split; [done | by apply elem_of_range].
Qed.
End range_facts.

(** ** Listener registration and dispatch *)

Lemma go_copy_nil_dst {A} (src : list A) : go_copy [] src = [].
Proof. reflexivity. Qed.

Lemma AddEventHandler_handlers h d : handlers (AddEventHandler h d) = [h].
Proof. reflexivity. Qed.

(** C1, evaluated on the code: two listeners are registered on a new
    factory and one add event is dispatched.  The stored listener slice
    holds the second listener alone; the first one receives no call, the
    second one receives one. *)
Theorem C1_first_listener_dropped :
  let d := AddEventHandler 2 (AddEventHandler 1 NewDynamicDiscoverySharedInformerFactory) in
  let calls := AddFunc d crdGVR 0 in
  handlers d = [2] ∧ callsTo 1 calls = 0 ∧ callsTo 2 calls = 1.
Proof. repeat split. Qed.

(** ** Indexer registration *)

Lemma addIndexersLoop_spec entries : ∀ cur,
  NoDup entries.*1 →
  match addIndexersLoop entries cur with
  | (None, cur') =>
      (∀ name, name ∈ entries.*1 → cur !! name = None) ∧
      cur' = list_to_map entries ∪ cur
  | (Some err, cur') =>
      ∃ before name indexer after,
        entries = before ++ (name, indexer) :: after ∧
        err = ErrIndexerExists name ∧
        is_Some (cur !! name) ∧
        (∀ n, n ∈ before.*1 → cur !! n = None) ∧
        cur' = list_to_map before ∪ cur
  end.
Proof.
  induction entries as [|[name indexer] rest IH]; intros cur Hnd.
  - cbn [addIndexersLoop]. rewrite list_to_map_nil, (left_id_L ∅ (∪)).
    split; [by intros ? ?%elem_of_nil | done].
  - rewrite fmap_cons in Hnd. apply NoDup_cons in Hnd as [Hfresh Hnd].
    cbn [addIndexersLoop fst] in *.
    destruct (cur !! name) as [old|] eqn:Hname.
    + exists [], name, indexer, rest.
      rewrite list_to_map_nil, (left_id_L ∅ (∪)).
      repeat split; [by eexists | by intros ? ?%elem_of_nil].
    + specialize (IH (<[name := indexer]> cur) Hnd).
      destruct (addIndexersLoop rest (<[name := indexer]> cur)) as [[err|] cur'].
      * destruct IH as (before & n & ix & after & -> & -> & Hsome & Hbefore & ->).
        assert (n ≠ name) as Hne.
        { intros ->. apply Hfresh. rewrite fmap_app, fmap_cons. set_solver. }
        assert (name ∉ before.*1) as Hnb.
        { intros Hin. apply Hfresh. rewrite fmap_app. apply elem_of_app. by left. }
        exists ((name, indexer) :: before), n, ix, after.
        repeat split.
        -- by rewrite lookup_insert_ne in Hsome.
        -- rewrite fmap_cons. intros n' [->|Hin]%elem_of_cons; [done|].
           specialize (Hbefore n' Hin).
           apply lookup_insert_None in Hbefore. tauto.
        -- rewrite list_to_map_cons, <- insert_union_l, insert_union_r; [done|].
           by apply not_elem_of_list_to_map_1.
      * destruct IH as [Hnone ->]. split.
        -- rewrite fmap_cons. intros n' [->|Hin]%elem_of_cons; [done|].
           specialize (Hnone n' Hin). apply lookup_insert_None in Hnone. tauto.
        -- rewrite list_to_map_cons, <- insert_union_l, insert_union_r; [done|].
           by apply not_elem_of_list_to_map_1.
Qed.


(** ** The lister snapshot *)

Lemma listersLoop_spec r entries : ∀ listers notSynced,
  NoDup entries.*1 →
  (∀ k, k ∈ entries.*1 → listers !! k = None) →
  (∀ gvr l,
      (listersLoop r entries listers notSynced).1 !! gvr = Some l ↔
      listers !! gvr = Some l ∨
      ∃ inf, (gvr, inf) ∈ entries ∧ HasSynced r inf = true ∧ l = ListerOf inf) ∧
  (listersLoop r entries listers notSynced).2 =
    notSynced ++ (filter (λ e, HasSynced r e.2 = false) entries).*1.
Proof.
  induction entries as [|[gvr informer] rest IH]; intros listers notSynced Hnd Hfresh.
  - cbn [listersLoop fst snd]. rewrite filter_nil, fmap_nil, app_nil_r. split; [|done].
    intros g l. split; [by left|]. intros [?|(inf & Hin & _)]; [done|].
    by apply elem_of_nil in Hin.
  - rewrite fmap_cons in Hnd. apply NoDup_cons in Hnd as [Hnotin Hnd].
    cbn [fst] in Hnotin. cbn [listersLoop].
    destruct (HasSynced r informer) eqn:Hsync; cbn [negb].
    + destruct (IH (<[gvr := ListerOf informer]> listers) notSynced Hnd) as [IHl IHn].
      { intros k Hk. rewrite lookup_insert_ne; [|by intros ->].
        apply Hfresh. rewrite fmap_cons. by right. }
      split.
      * intros g l. rewrite IHl. split.
        -- intros [Hl|(inf & Hin & Hs & ->)].
           ++ apply lookup_insert_Some in Hl as [[<- <-]|[_ Hl]]; [|by left].
              right. exists informer. split; [by left | done].
           ++ right. exists inf. split; [by right | done].
        -- intros [Hl|(inf & Hin & Hs & ->)].
           ++ left. rewrite lookup_insert_ne; [done|]. intros <-.
              rewrite Hfresh in Hl; [done|]. rewrite fmap_cons. by left.
           ++ apply elem_of_cons in Hin as [[= -> ->]|Hin].
              ** left. by rewrite lookup_insert_eq.
              ** right. by exists inf.
      * rewrite IHn, filter_cons_False; [done|]. cbn [snd]. by rewrite Hsync.
    + destruct (IH listers (notSynced ++ [gvr]) Hnd) as [IHl IHn].
      { intros k Hk. apply Hfresh. rewrite fmap_cons. by right. }
      split.
      * intros g l. rewrite IHl. split.
        -- intros [Hl|(inf & Hin & Hs & ->)]; [by left|].
           right. exists inf. split; [by right | done].
        -- intros [Hl|(inf & Hin & Hs & ->)]; [by left|].
           apply elem_of_cons in Hin as [[= -> ->]|Hin]; [congruence|].
           right. by exists inf.
      * rewrite IHn, filter_cons_True by done. by rewrite fmap_cons, <- app_assoc.
Qed.

(** The two results of [Listers] in any state.  When [d.terminating] is
    not set, the lister map holds the lister of exactly the stored
    informers that have synced, and [notSynced] lists, once each, exactly
    the keys of the stored informers that have not; no key is in both.
    When it is set both results are empty. *)
Theorem Listers_spec (ro : RangeOrder) (s : State) :
  let '(listers, notSynced) := Listers ro s in
  if terminating (fac s)
  then listers = ∅ ∧ notSynced = []
  else
    (∀ gvr l, listers !! gvr = Some l ↔
       ∃ inf, informers (fac s) !! gvr = Some inf ∧
              HasSynced (rt s) inf = true ∧ l = ListerOf inf) ∧
    (∀ gvr, gvr ∈ notSynced ↔
       ∃ inf, informers (fac s) !! gvr = Some inf ∧ HasSynced (rt s) inf = false) ∧
    NoDup notSynced ∧
    (∀ gvr, gvr ∈ notSynced → listers !! gvr = None).
Proof.
  unfold Listers. destruct (terminating (fac s)); [done|].
  pose proof (listersLoop_spec (rt s) (range ro (informers (fac s))) ∅ []
                (range_NoDup_fst ro _) (λ k _, lookup_empty k)) as [Hl Hn].
  destruct (listersLoop (rt s) (range ro (informers (fac s))) ∅ []) as [listers notSynced].
  cbn [fst snd] in Hl, Hn. rewrite app_nil_l in Hn.
  assert (∀ gvr, gvr ∈ notSynced ↔
     ∃ inf, informers (fac s) !! gvr = Some inf ∧ HasSynced (rt s) inf = false) as Hns.
  { intros gvr. rewrite Hn, list_elem_of_fmap. split.
    - intros [[g inf] [-> [Hs Hin]%list_elem_of_filter]]. exists inf.
      split; [by apply (elem_of_range ro) | done].
    - intros (inf & Hin & Hs). exists (gvr, inf). split; [done|].
      apply list_elem_of_filter. split; [done | by apply (elem_of_range ro)]. }
  assert (∀ gvr l, listers !! gvr = Some l ↔
       ∃ inf, informers (fac s) !! gvr = Some inf ∧
              HasSynced (rt s) inf = true ∧ l = ListerOf inf) as Hls.
  { intros gvr l. rewrite Hl. split.
    - intros [?|(inf & Hin & ?)]; [done|]. exists inf.
      split; [by apply (elem_of_range ro) | done].
    - intros (inf & Hin & ?). right. exists inf.
      split; [by apply (elem_of_range ro) | done]. }
  repeat split; try apply Hls; try apply Hns.
  - rewrite Hn. apply NoDup_fmap_fst.
    + intros k x y [_ Hx%(elem_of_range ro)]%list_elem_of_filter
                   [_ Hy%(elem_of_range ro)]%list_elem_of_filter. congruence.
    + apply NoDup_filter. rewrite (range_perm ro). apply NoDup_map_to_list.
  - intros gvr (inf & Hin & Hs)%Hns.
    destruct (listers !! gvr) as [l|] eqn:Hg; [|done].
    apply Hls in Hg as (inf' & Hin' & Hs' & _). congruence.
Qed.

(** ** Discovery *)

Lemma Contains_slash s : Contains s "/" = true ↔ "/"%char ∈ list_ascii_of_string s.
Proof.
  induction s as [|c s IH]; cbn [Contains String.prefix list_ascii_of_string].
  - split; [done | by intros ?%elem_of_nil].
  - rewrite orb_true_iff, IH, elem_of_cons.
    destruct (ascii_dec "/" c) as [<-|Hne].
    + destruct s; tauto.
    + split; [intros [?|?]; [done | by right] | intros [?|?]; [done | by right]].
Qed.

Lemma skipped_false ai : skipped ai = false ↔ observable ai.
Proof.
  unfold skipped, observable, HasAll, NewString. cbn [forallb].
  destruct (Contains (Name ai) "/"); [naive_solver|].
  destruct (Namespaced ai); cbn [negb]; [|naive_solver].
  rewrite andb_true_r.
  do 2 case_bool_decide; cbn [andb negb]; set_solver.
Qed.

Lemma resourcesLoop_lookup gv ais : ∀ latest gvr,
  is_Some (resourcesLoop gv ais latest !! gvr) ↔
  is_Some (latest !! gvr) ∨
  ∃ ai, ai ∈ ais ∧ observable ai ∧ gvr = WithResource gv (Name ai).
Proof.
  induction ais as [|ai rest IH]; intros latest gvr; cbn [resourcesLoop].
  - split; [by left|]. intros [?|(ai & Hin & _)]; [done|]. by apply elem_of_nil in Hin.
  - destruct (skipped ai) eqn:Hskip; rewrite IH.
    + split.
      * intros [?|(ai' & ? & ? & ?)]; [by left|]. right. exists ai'. by rewrite elem_of_cons; auto.
      * intros [?|(ai' & [->|?]%elem_of_cons & Hobs & ?)]; [by left | | right; by exists ai'].
        apply skipped_false in Hobs. congruence.
    + apply skipped_false in Hskip. rewrite lookup_insert_is_Some. split.
      * intros [[<-| [_ ?]]|(ai' & ? & ? & ?)].
        -- right. exists ai. by rewrite elem_of_cons; auto.
        -- by left.
        -- right. exists ai'. by rewrite elem_of_cons; auto.
      * intros [?|(ai' & [->|?]%elem_of_cons & Hobs & ->)].
        -- destruct (decide (WithResource gv (Name ai) = gvr)); auto.
        -- left. by left.
        -- right. by exists ai'.
Qed.

Lemma listsLoop_spec cg rs : ∀ latest,
  match listsLoop cg rs latest with
  | Ok latest' =>
      ∀ gvr, is_Some (latest' !! gvr) ↔
        is_Some (latest !! gvr) ∨
        ∃ r gv ai, r ∈ rs ∧ ParseGroupVersion cg (GroupVersionOf r) = Ok gv ∧
                   ai ∈ APIResources r ∧ observable ai ∧
                   gvr = WithResource gv (Name ai)
  | Err e => ∃ r, r ∈ rs ∧ ParseGroupVersion cg (GroupVersionOf r) = Err e
  end.
Proof.
  induction rs as [|r rest IH]; intros latest; cbn [listsLoop].
  - intros gvr. split; [by left|]. intros [?|(r & ? & ? & Hin & _)]; [done|].
    by apply elem_of_nil in Hin.
  - destruct (ParseGroupVersion cg (GroupVersionOf r)) as [gv|e] eqn:Hparse.
    + specialize (IH (resourcesLoop gv (APIResources r) latest)).
      destruct (listsLoop cg rest _) as [latest'|e].
      * intros gvr. rewrite IH, resourcesLoop_lookup. split.
        -- intros [[?|(ai & ? & ? & ?)]|(r' & gv' & ai & ? & ?)]; [by left | |].
           ++ right. exists r, gv, ai. by rewrite elem_of_cons; auto.
           ++ right. exists r', gv', ai. by rewrite elem_of_cons; auto.
        -- intros [?|(r' & gv' & ai & [->|?]%elem_of_cons & Hp & ? & ? & ?)]; [left; by left | |].
           ++ left. right. exists ai. assert (gv' = gv) as -> by congruence. auto.
           ++ right. by exists r', gv', ai.
      * destruct IH as (r' & ? & ?). exists r'. by rewrite elem_of_cons; auto.
    + exists r. by rewrite elem_of_cons; auto.
Qed.

Lemma workspacesLoop_spec cg disco wss : ∀ latest,
  match workspacesLoop cg disco wss latest with
  | Ok latest' =>
      ∀ gvr, is_Some (latest' !! gvr) ↔
        is_Some (latest !! gvr) ∨
        ∃ ws rs r gv ai,
          ws ∈ wss ∧
          ServerPreferredResources disco (logicalClusterName ws) = Ok rs ∧ r ∈ rs ∧
          ParseGroupVersion cg (GroupVersionOf r) = Ok gv ∧
          ai ∈ APIResources r ∧ observable ai ∧ gvr = WithResource gv (Name ai)
  | Err e =>
      ∃ ws, ws ∈ wss ∧
        (ServerPreferredResources disco (logicalClusterName ws) = Err e ∨
         ∃ rs r, ServerPreferredResources disco (logicalClusterName ws) = Ok rs ∧
                 r ∈ rs ∧ ParseGroupVersion cg (GroupVersionOf r) = Err e)
  end.
Proof.
  induction wss as [|ws rest IH]; intros latest; cbn [workspacesLoop].
  - intros gvr. split; [by left|]. intros [?|(ws & ? & ? & ? & ? & Hin & _)]; [done|].
    by apply elem_of_nil in Hin.
  - destruct (ServerPreferredResources disco (logicalClusterName ws)) as [rs|e] eqn:Hspr.
    + pose proof (listsLoop_spec cg rs latest) as Hlists.
      destruct (listsLoop cg rs latest) as [latest1|e].
      * specialize (IH latest1).
        destruct (workspacesLoop cg disco rest latest1) as [latest'|e].
        -- intros gvr. rewrite IH, Hlists. split.
           ++ intros [[?|(r & gv & ai & ?)]|(ws' & rs' & r & gv & ai & ? & ?)]; [by left | |].
              ** right. exists ws, rs, r, gv, ai. by rewrite elem_of_cons; auto.
              ** right. exists ws', rs', r, gv, ai. by rewrite elem_of_cons; auto.
           ++ intros [?|(ws' & rs' & r & gv & ai & [->|?]%elem_of_cons & Hs & ?)];
                [left; by left | |].
              ** left. right. exists r, gv, ai. assert (rs' = rs) as -> by congruence. tauto.
              ** right. by exists ws', rs', r, gv, ai.
        -- destruct IH as (ws' & ? & ?). exists ws'. by rewrite elem_of_cons; auto.
      * destruct Hlists as (r & ? & ?). exists ws. split; [by left|].
        right. by exists rs, r.
    + exists ws. split; [by left | by left].
Qed.

Lemma workspacesLoop_failing_tenant cg disco wss ws e0 : ∀ latest,
  ws ∈ wss →
  ServerPreferredResources disco (logicalClusterName ws) = Err e0 →
  ∃ e, workspacesLoop cg disco wss latest = Err e.
Proof.
  induction wss as [|w rest IH]; intros latest Hin Herr; [by apply elem_of_nil in Hin|].
  cbn [workspacesLoop].
  apply elem_of_cons in Hin as [->|Hin].
  - rewrite Herr. by eexists.
  - destruct (ServerPreferredResources disco (logicalClusterName w)) as [rs|]; [|by eexists].
    destruct (listsLoop cg rs latest); [|by eexists].
    by apply IH.
Qed.

(** C3, as amended.  When the pass gets through discovery, a type is in
    the discovered set exactly when some workspace reports a descriptor
    for it whose name has no slash, that is namespaced, and whose verbs
    include both list and watch.  When it does not get through, the error
    is the one returned by the workspace lister, by a workspace's
    discovery call or by parsing a group-version: a descriptor that is
    left out never produces one. *)
Theorem discover_spec (cg : ClientGo) (disco : Discovery) :
  match discover cg disco with
  | Ok latest =>
      ∀ gvr, is_Some (latest !! gvr) ↔ ∃ ai, reports cg disco gvr ai ∧ observable ai
  | Err e =>
      ListWorkspaces disco = Err e ∨
      ∃ workspaces ws,
        ListWorkspaces disco = Ok workspaces ∧ ws ∈ workspaces ∧
        (ServerPreferredResources disco (logicalClusterName ws) = Err e ∨
         ∃ rs r, ServerPreferredResources disco (logicalClusterName ws) = Ok rs ∧
                 r ∈ rs ∧ ParseGroupVersion cg (GroupVersionOf r) = Err e)
  end.
Proof.
  unfold discover, reports.
  destruct (ListWorkspaces disco) as [wss|e]; [|by left].
  pose proof (workspacesLoop_spec cg disco wss ∅) as Hloop.
  destruct (workspacesLoop cg disco wss ∅) as [latest|e].
  - intros gvr. rewrite Hloop, lookup_empty. split.
    + intros [[? [=]]|(ws & rs & r & gv & ai & ? & ? & ? & ? & ? & ? & ?)].
      exists ai. split; [|done]. by exists wss, ws, rs, r, gv.
    + intros (ai & (wss' & ws & rs & r & gv & [= <-] & ?) & ?).
      right. exists ws, rs, r, gv, ai. tauto.
  - right. destruct Hloop as (ws & ? & ?). by exists wss, ws.
Qed.

(** C3 fails as worded: the subresource descriptor is namespaced and has
    list and watch, and is not in the discovered set. *)
Lemma subresource_not_discovered :
  ¬ included_iff_namespaced_list_watch clientGo subresourceDiscovery.
Proof.
  intros Hclaim.
  assert (discover clientGo subresourceDiscovery = Ok {[ mkGVR "" "v1" "pods" := tt ]})
    as Hd by (vm_compute; reflexivity).
  specialize (Hclaim _ Hd (mkGVR "" "v1" "pods/log")).
  rewrite lookup_singleton_ne in Hclaim by discriminate.
  apply (is_Some_None (A := unit)), Hclaim.
  exists (mkAPIResource "pods/log" true ["get"; "list"; "watch"]).
  split.
  - exists [mkClusterWorkspace "root" "org"], (mkClusterWorkspace "root" "org"),
      [mkAPIResourceList "v1"
         [mkAPIResource "pods" true ["get"; "list"; "watch"];
          mkAPIResource "pods/log" true ["get"; "list"; "watch"]]],
      (mkAPIResourceList "v1"
         [mkAPIResource "pods" true ["get"; "list"; "watch"];
          mkAPIResource "pods/log" true ["get"; "list"; "watch"]]),
      (mkGV "" "v1").
    split_and!; try reflexivity.
    + by left.
    + by left.
    + right. by left.
  - split_and!; [reflexivity | right; by left | right; right; by left].
Qed.

(** C8.  When the workspace lister fails, or the discovery call of any one
    workspace fails, [discoverTypes] returns an error and the state after
    the pass is the state before it: informer map, started flags, stop
    channels and everything else. *)
Theorem discoverTypes_discovery_failure (ro : RangeOrder) (cg : ClientGo)
    (disco : Discovery) (s : State) :
  (∃ e, ListWorkspaces disco = Err e) ∨
  (∃ workspaces ws e,
      ListWorkspaces disco = Ok workspaces ∧ ws ∈ workspaces ∧
      ServerPreferredResources disco (logicalClusterName ws) = Err e) →
  ∃ err, discoverTypes ro cg disco s = (Some err, s).
Proof.
  unfold discoverTypes, discover.
  intros [[e He]|(wss & ws & e & Hl & Hin & He)].
  - rewrite He. by exists e.
  - rewrite Hl.
    destruct (workspacesLoop_failing_tenant cg disco wss ws e ∅ Hin He) as [e' ->].
    by exists e'.
Qed.

(** ** Reconciliation *)

Section calculate.
Context (ro : RangeOrder) (d : Factory) (latest : gmap GVR unit).

Lemma elem_of_toAdd k :
  k ∈ (calculateInformersLockHeld ro d latest).1 ↔
  is_Some (latest !! k) ∧ informers d !! k = None.
Proof.
  cbn [calculateInformersLockHeld fst].
  rewrite list_elem_of_filter, (elem_of_rangeKeys ro). tauto.
Qed.

Lemma elem_of_toRemove k :
  k ∈ (calculateInformersLockHeld ro d latest).2 ↔
  is_Some (informers d !! k) ∧ pinned k = false ∧ latest !! k = None.
Proof.
  cbn [calculateInformersLockHeld snd].
  rewrite list_elem_of_filter, (elem_of_rangeKeys ro). tauto.
Qed.

Lemma NoDup_toAdd : NoDup (calculateInformersLockHeld ro d latest).1.
Proof. apply NoDup_filter, rangeKeys_NoDup. Qed.

Lemma NoDup_toRemove : NoDup (calculateInformersLockHeld ro d latest).2.
Proof. apply NoDup_filter, rangeKeys_NoDup. Qed.
End calculate.

Lemma informerForResourceLockHeld_found cg gvr s inf :
  informers (fac s) !! gvr = Some inf →
  informerForResourceLockHeld cg gvr s = (Ok inf, s).
Proof. unfold informerForResourceLockHeld. by intros ->. Qed.

Lemma informerForResourceLockHeld_fresh cg gvr s :
  informers (fac s) !! gvr = None →
  informerForResourceLockHeld cg gvr s =
    match informerAddIndexers cg (mkInformer (nextInformer (rt s)) gvr) (indexers (fac s)) with
    | Some err => (Err err, mkState (fac s) (NewFilteredDynamicInformer gvr (rt s)).2)
    | None => (Ok (mkInformer (nextInformer (rt s)) gvr), stored gvr s)
    end.
Proof. unfold informerForResourceLockHeld. by intros ->. Qed.

Lemma omap_ext_elem_of {A B} (f g : A → option B) (l : list A) :
  (∀ x, x ∈ l → f x = g x) → omap f l = omap g l.
Proof.
  induction l as [|x l IH]; intros Hfg; [done|]. csimpl.
  rewrite (Hfg x) by by left. rewrite IH; [done|].
  intros y Hy. apply Hfg. by right.
Qed.

(** What [removeLoop] does to the three maps and to the closed channels. *)
Lemma removeLoop_spec l : ∀ s,
  NoDup l →
  let s' := removeLoop l s in
  (∀ k, informers (fac s') !! k = if decide (k ∈ l) then None else informers (fac s) !! k) ∧
  (∀ k, informerStops (fac s') !! k =
        if decide (k ∈ l) then None else informerStops (fac s) !! k) ∧
  (∀ k, startedInformers (fac s') !! k =
        if decide (k ∈ l) then None else startedInformers (fac s) !! k) ∧
  closed (rt s') = closed (rt s) ++ omap (λ k, informerStops (fac s) !! k) l ∧
  indexers (fac s') = indexers (fac s) ∧ handlers (fac s') = handlers (fac s) ∧
  terminating (fac s') = terminating (fac s) ∧
  nextInformer (rt s') = nextInformer (rt s) ∧ nextChan (rt s') = nextChan (rt s) ∧
  goroutines (rt s') = goroutines (rt s) ∧ synced (rt s') = synced (rt s).
Proof.
  induction l as [|gvr rest IH]; intros s Hnd; cbn [removeLoop].
  - cbn [omap]. rewrite app_nil_r. repeat split; intros k; by rewrite decide_False by set_solver.
  - apply NoDup_cons in Hnd as [Hnotin Hnd].
    destruct (IH (removeInformer gvr s) Hnd)
      as (Hi & Hs & Hst & Hc & ? & ? & ? & Hni & Hnc & Hg & Hsy).
    assert (∀ {V} (m : gmap GVR V) k,
      (if decide (k ∈ rest) then None else delete gvr m !! k) =
      (if decide (k ∈ gvr :: rest) then None else m !! k)) as Hdel.
    { intros V m k. destruct (decide (k = gvr)) as [->|Hne].
      - rewrite lookup_delete_eq, decide_False, decide_True by set_solver. done.
      - rewrite lookup_delete_ne by done.
        destruct (decide (k ∈ rest)).
        + by rewrite decide_True by set_solver.
        + by rewrite decide_False by set_solver. }
    repeat split; try done.
    + intros k. rewrite Hi. apply Hdel.
    + intros k. rewrite Hs. apply Hdel.
    + intros k. rewrite Hst. apply Hdel.
    + rewrite Hc. cbn [omap removeInformer fac rt set_informerStops informerStops
                       set_startedInformers set_informers].
      assert (omap (λ k, delete gvr (informerStops (fac s)) !! k) rest =
              omap (λ k, informerStops (fac s) !! k) rest) as ->.
      { apply omap_ext_elem_of. intros k Hk.
        apply lookup_delete_ne. by intros <-. }
      csimpl. destruct (informerStops (fac s) !! gvr); cbn [closeChan closed];
        by rewrite <- ?app_assoc.
    + rewrite Hni. unfold removeInformer. by destruct (informerStops (fac s) !! gvr).
    + rewrite Hnc. unfold removeInformer. by destruct (informerStops (fac s) !! gvr).
    + rewrite Hg. unfold removeInformer. by destruct (informerStops (fac s) !! gvr).
    + rewrite Hsy. unfold removeInformer. by destruct (informerStops (fac s) !! gvr).
Qed.

Lemma addLoop_cons_fresh cg gvr rest s :
  informers (fac s) !! gvr = None →
  addLoop cg (gvr :: rest) s =
    match informerAddIndexers cg (mkInformer (nextInformer (rt s)) gvr) (indexers (fac s)) with
    | Some err => (Some err, mkState (fac s) (NewFilteredDynamicInformer gvr (rt s)).2)
    | None => addLoop cg rest (added gvr s)
    end.
Proof.
  intros Hfresh. cbn [addLoop]. rewrite informerForResourceLockHeld_fresh by done.
  by destruct (informerAddIndexers _ _ _).
Qed.

Lemma addLoop_spec cg l : ∀ s,
  NoDup l →
  (∀ k, k ∈ l → informers (fac s) !! k = None) →
  let s' := (addLoop cg l s).2 in
  ∃ done rest,
    l = done ++ rest ∧
    match (addLoop cg l s).1 with
    | None => rest = []
    | Some err =>
        ∃ gvr rest' inf,
          rest = gvr :: rest' ∧ infGVR inf = gvr ∧
          informerAddIndexers cg inf (indexers (fac s)) = Some err
    end ∧
    indexers (fac s') = indexers (fac s) ∧ handlers (fac s') = handlers (fac s) ∧
    terminating (fac s') = terminating (fac s) ∧
    closed (rt s') = closed (rt s) ∧ synced (rt s') = synced (rt s) ∧
    (nextInformer (rt s) ≤ nextInformer (rt s'))%nat ∧
    (nextChan (rt s) ≤ nextChan (rt s'))%nat ∧
    (∀ k, k ∉ done → sameEntry s s' k) ∧
    (∀ k, k ∈ done → addedEntry s s' k) ∧
    ∃ new, goroutines (rt s') = goroutines (rt s) ++ new ∧
           ∀ inf stop, (inf, stop) ∈ new → infGVR inf ∈ done.
Proof.
  induction l as [|gvr l IH]; intros s Hnd Hfresh.
  - exists [], []. cbn [addLoop fst snd]. split_and!; try done.
    + by intros ? ?%elem_of_nil.
    + exists []. rewrite app_nil_r. split; [done|]. by intros ? ? ?%elem_of_nil.
  - apply NoDup_cons in Hnd as [Hnotin Hnd].
    rewrite addLoop_cons_fresh by (apply Hfresh; by left).
    destruct (informerAddIndexers cg _ _) as [err|] eqn:Hix.
    + exists [], (gvr :: l). cbn [fst snd fac rt NewFilteredDynamicInformer nextInformer
                                  nextChan goroutines closed synced].
      split_and!; try done; try lia.
      * by exists gvr, l, (mkInformer (nextInformer (rt s)) gvr).
      * by intros ? ?%elem_of_nil.
      * exists []. rewrite app_nil_r. split; [done|]. by intros ? ? ?%elem_of_nil.
    + destruct (IH (added gvr s) Hnd) as (done & rest & -> & Hres & Hi & Hh & Ht & Hc & Hsy
                                          & Hni & Hnc & Hsame & Hadded & new & Hg & Hnew).
      { intros k Hk. cbn. rewrite lookup_insert_ne; [|by intros ->].
        apply Hfresh. by right. }
      set (s' := (addLoop cg (done ++ rest) (added gvr s)).2) in *.
      exists (gvr :: done), rest.
      change (indexers (fac (added gvr s))) with (indexers (fac s)) in *.
      change (handlers (fac (added gvr s))) with (handlers (fac s)) in *.
      change (terminating (fac (added gvr s))) with (terminating (fac s)) in *.
      change (closed (rt (added gvr s))) with (closed (rt s)) in *.
      change (synced (rt (added gvr s))) with (synced (rt s)) in *.
      change (nextInformer (rt (added gvr s))) with (S (nextInformer (rt s))) in *.
      change (nextChan (rt (added gvr s))) with (S (nextChan (rt s))) in *.
      change (goroutines (rt (added gvr s)))
        with (goroutines (rt s) ++ [(mkInformer (nextInformer (rt s)) gvr, nextChan (rt s))]) in *.
      assert (gvr ∉ done) as Hgd by (intros ?; apply Hnotin, elem_of_app; by left).
      split_and!; try done; try lia.
      * intros k Hk. apply not_elem_of_cons in Hk as [Hne Hk].
        destruct (Hsame k Hk) as (Hsi & Hss & Hst). unfold sameEntry.
        rewrite Hsi, Hss, Hst. cbn. by rewrite !lookup_insert_ne by done.
      * intros k [->|Hk]%elem_of_cons.
        -- destruct (Hsame gvr Hgd) as (Hsi & Hss & Hst).
           exists (mkInformer (nextInformer (rt s)) gvr), (nextChan (rt s)).
           rewrite Hsi, Hss, Hst, Hg. cbn. rewrite !lookup_insert_eq.
           split_and!; try done; try lia.
           rewrite !elem_of_app, list_elem_of_singleton. auto.
        -- destruct (Hadded k Hk) as (inf & stop & ? & ? & Hbi & ? & Hbc & ? & ?).
           cbn in Hbi, Hbc.
           exists inf, stop. split_and!; try done; lia.
      * exists ((mkInformer (nextInformer (rt s)) gvr, nextChan (rt s)) :: new).
        split; [by rewrite Hg, <- app_assoc|].
        intros inf stop [[= -> ->]|Hin]%elem_of_cons; [by left|].
        right. by eapply Hnew.
Qed.

(** ** Well-formed states are kept *)

Lemma NoDup_snd_inj {A B} (l : list (A * B)) a a' b :
  NoDup l.*2 → (a, b) ∈ l → (a', b) ∈ l → a = a'.
Proof.
  induction l as [|[x y] l IH]; [by intros _ ?%elem_of_nil|].
  rewrite fmap_cons. intros [Hy Hnd]%NoDup_cons. cbn [snd] in Hy.
  intros [[= -> ->]|Hin]%elem_of_cons [[= ->]|Hin']%elem_of_cons; [done| | |by apply IH].
  - exfalso. apply Hy. apply list_elem_of_fmap. by exists (a', y).
  - simplify_eq. exfalso. apply Hy. apply list_elem_of_fmap. by exists (a, y).
Qed.

Lemma elem_of_snd {A B} (l : list (A * B)) a b : (a, b) ∈ l → b ∈ l.*2.
Proof. intros Hin. apply list_elem_of_fmap. by exists (a, b). Qed.

Section wf_facts.
Context (s : State) (Hwf : wf s).

Lemma wf_chan_bound c : c ∈ (goroutines (rt s)).*2 → (c < nextChan (rt s))%nat.
Proof.
  intros [[inf c'] [-> Hin]]%list_elem_of_fmap.
  by destruct (wf_goroutine s Hwf inf c' Hin).
Qed.

Lemma wf_stop_None k : informers (fac s) !! k = None → informerStops (fac s) !! k = None.
Proof.
  intros Hk. destruct (informerStops (fac s) !! k) as [c|] eqn:Hc; [|done].
  destruct (wf_stop s Hwf k c Hc) as (_ & inf & ? & _). congruence.
Qed.

(** Two keys never share a stop channel. *)
Lemma wf_stop_inj k k' c :
  informerStops (fac s) !! k = Some c → informerStops (fac s) !! k' = Some c → k = k'.
Proof.
  intros Hk Hk'.
  destruct (wf_stop s Hwf k c Hk) as (_ & inf & Hi & Hg).
  destruct (wf_stop s Hwf k' c Hk') as (_ & inf' & Hi' & Hg').
  assert (inf = inf') as <- by (eapply NoDup_snd_inj; [apply (wf_chans s Hwf)|done..]).
  destruct (wf_informer s Hwf k inf Hi) as [<- _].
  by destruct (wf_informer s Hwf k' inf Hi') as [<- _].
Qed.

(** At most one goroutine that has not been told to stop per key. *)
Lemma wf_one_live_watch inf1 c1 inf2 c2 :
  (inf1, c1) ∈ goroutines (rt s) → (inf2, c2) ∈ goroutines (rt s) →
  c1 ∉ closed (rt s) → c2 ∉ closed (rt s) →
  infGVR inf1 = infGVR inf2 → inf1 = inf2 ∧ c1 = c2.
Proof.
  intros H1 H2 Hc1 Hc2 Heq.
  destruct (wf_goroutine s Hwf _ _ H1) as [_ [?|[Hi1 Hs1]]]; [done|].
  destruct (wf_goroutine s Hwf _ _ H2) as [_ [?|[Hi2 Hs2]]]; [done|].
  rewrite Heq in Hi1, Hs1. split; congruence.
Qed.
End wf_facts.

Lemma wf_initState : wf initState.
Proof.
  split; cbn; try done; try apply NoDup_nil_2.
  - intros k. rewrite lookup_empty. cbn. split; [done | by intros [? ?]].
  - by intros ? ? ?%elem_of_nil.
Qed.

Lemma wf_stored gvr s :
  wf s → informers (fac s) !! gvr = None → wf (stored gvr s).
Proof.
  intros Hwf Hfresh. split; cbn.
  - intros k inf [[<- <-]|[Hne Hk]]%lookup_insert_Some; cbn; [split; [done|lia]|].
    destruct (wf_informer s Hwf k inf Hk). split; [done|lia].
  - intros k c Hc. destruct (wf_stop s Hwf k c Hc) as (? & inf & Hi & ?).
    split; [done|]. exists inf. split; [|done].
    rewrite lookup_insert_ne; [done|]. intros <-. congruence.
  - apply (wf_started s Hwf).
  - intros inf c Hin. destruct (wf_goroutine s Hwf inf c Hin) as [? [?|[Hi Hs]]].
    + auto.
    + split; [done|]. right. split; [|done].
      rewrite lookup_insert_ne; [done|]. intros Heq. rewrite <- Heq in Hi. congruence.
  - apply (wf_chans s Hwf).
  - apply (wf_closed s Hwf).
  - apply (wf_closed_chan s Hwf).
Qed.

Lemma wf_discarded gvr s :
  wf s → wf (mkState (fac s) (NewFilteredDynamicInformer gvr (rt s)).2).
Proof.
  intros Hwf. split; cbn.
  - intros k inf Hk. destruct (wf_informer s Hwf k inf Hk). split; [done|lia].
  - apply (wf_stop s Hwf).
  - apply (wf_started s Hwf).
  - apply (wf_goroutine s Hwf).
  - apply (wf_chans s Hwf).
  - apply (wf_closed s Hwf).
  - apply (wf_closed_chan s Hwf).
Qed.

Lemma wf_runInformer gvr inf s :
  wf s → informers (fac s) !! gvr = Some inf → informerStops (fac s) !! gvr = None →
  wf (runInformer gvr inf s).
Proof.
  intros Hwf Hinf Hstop.
  assert (nextChan (rt s) ∉ (goroutines (rt s)).*2) as Hnew.
  { intros Hin%(wf_chan_bound s Hwf). lia. }
  split; cbn.
  - apply (wf_informer s Hwf).
  - intros k c [[<- <-]|[Hne Hc]]%lookup_insert_Some.
    + split.
      * intros Hin%(wf_closed_chan s Hwf). done.
      * exists inf. split; [done|]. apply elem_of_app. right. by apply list_elem_of_singleton.
    + destruct (wf_stop s Hwf k c Hc) as (? & inf' & ? & ?).
      split; [done|]. exists inf'. split; [done|]. apply elem_of_app. by left.
  - intros k. destruct (decide (gvr = k)) as [<-|Hne].
    + rewrite !lookup_insert_eq. cbn. split; [by eexists | done].
    + rewrite !lookup_insert_ne by done. apply (wf_started s Hwf).
  - intros inf' c [Hin|[= -> ->]%list_elem_of_singleton]%elem_of_app.
    + destruct (wf_goroutine s Hwf inf' c Hin) as [? [?|[Hi Hs]]].
      * split; [lia | by left].
      * split; [lia|]. right. split; [done|].
        rewrite lookup_insert_ne; [done|]. intros Heq. rewrite <- Heq in Hs. congruence.
    + split; [lia|]. right.
      destruct (wf_informer s Hwf gvr inf Hinf) as [-> _].
      split; [done | by rewrite lookup_insert_eq].
  - rewrite fmap_app. apply NoDup_app. split_and!.
    + apply (wf_chans s Hwf).
    + intros c Hc [= ->]%list_elem_of_singleton. done.
    + apply NoDup_singleton.
  - apply (wf_closed s Hwf).
  - intros c Hc%(wf_closed_chan s Hwf). rewrite fmap_app. apply elem_of_app. by left.
Qed.

Lemma wf_removeInformer gvr s : wf s → wf (removeInformer gvr s).
Proof.
  intros Hwf.
  assert (∀ c, c ∈ closed (rt (removeInformer gvr s)) ↔
               c ∈ closed (rt s) ∨ informerStops (fac s) !! gvr = Some c) as Hclosed.
  { intros c. unfold removeInformer. cbn [rt].
    destruct (informerStops (fac s) !! gvr) as [c'|]; cbn.
    - rewrite elem_of_app, list_elem_of_singleton. naive_solver.
    - naive_solver. }
  assert (goroutines (rt (removeInformer gvr s)) = goroutines (rt s)) as Hgor.
  { unfold removeInformer. cbn [rt]. by destruct (informerStops (fac s) !! gvr). }
  assert (nextChan (rt (removeInformer gvr s)) = nextChan (rt s)) as Hnc.
  { unfold removeInformer. cbn [rt]. by destruct (informerStops (fac s) !! gvr). }
  assert (nextInformer (rt (removeInformer gvr s)) = nextInformer (rt s)) as Hni.
  { unfold removeInformer. cbn [rt]. by destruct (informerStops (fac s) !! gvr). }
  split.
  - rewrite Hni. cbn. intros k inf [Hne Hk]%lookup_delete_Some.
    apply (wf_informer s Hwf k inf Hk).
  - intros k c. rewrite Hclosed, Hgor. cbn. intros [Hne Hc]%lookup_delete_Some.
    destruct (wf_stop s Hwf k c Hc) as (? & inf & ? & ?). split.
    + intros [?|Hg]; [done|]. by apply Hne, (wf_stop_inj s Hwf gvr k c).
    + exists inf. by rewrite lookup_delete_ne.
  - intros k. cbn. destruct (decide (gvr = k)) as [<-|Hne].
    + rewrite !lookup_delete_eq. cbn. split; [done | by intros [? ?]].
    + rewrite !lookup_delete_ne by done. apply (wf_started s Hwf).
  - intros inf c. rewrite Hgor, Hnc. intros Hin.
    destruct (wf_goroutine s Hwf inf c Hin) as [? [?|[Hi Hs]]].
    + split; [done|]. left. apply Hclosed. by left.
    + split; [done|]. destruct (decide (gvr = infGVR inf)) as [Heq|Hne].
      * left. apply Hclosed. right. by rewrite Heq.
      * right. cbn. by rewrite !lookup_delete_ne.
  - rewrite Hgor. apply (wf_chans s Hwf).
  - unfold removeInformer. cbn [rt].
    destruct (informerStops (fac s) !! gvr) as [c|] eqn:Hc; [|apply (wf_closed s Hwf)].
    cbn. apply NoDup_app. split_and!.
    + apply (wf_closed s Hwf).
    + intros c' Hc' [= ->]%list_elem_of_singleton.
      by destruct (wf_stop s Hwf gvr c Hc).
    + apply NoDup_singleton.
  - intros c. rewrite Hclosed, Hgor. intros [?|Hc]; [by apply (wf_closed_chan s Hwf)|].
    destruct (wf_stop s Hwf gvr c Hc) as (_ & inf & _ & ?). by eapply elem_of_snd.
Qed.

Lemma wf_informerForResourceLockHeld cg gvr s :
  wf s → wf (informerForResourceLockHeld cg gvr s).2.
Proof.
  intros Hwf. destruct (informers (fac s) !! gvr) as [inf|] eqn:Hk.
  - by rewrite (informerForResourceLockHeld_found cg gvr s inf).
  - rewrite informerForResourceLockHeld_fresh by done.
    destruct (informerAddIndexers cg _ _); cbn [snd].
    + by apply wf_discarded.
    + by apply wf_stored.
Qed.

Lemma wf_added gvr s : wf s → informers (fac s) !! gvr = None → wf (added gvr s).
Proof.
  intros Hwf Hfresh. unfold added.
  apply (wf_runInformer gvr (mkInformer (nextInformer (rt s)) gvr) (stored gvr s)).
  - by apply wf_stored.
  - cbn. by rewrite lookup_insert_eq.
  - cbn. by apply wf_stop_None.
Qed.

Lemma wf_addLoop cg l : ∀ s,
  wf s → NoDup l → (∀ k, k ∈ l → informers (fac s) !! k = None) →
  wf (addLoop cg l s).2.
Proof.
  induction l as [|gvr l IH]; intros s Hwf Hnd Hfresh; [done|].
  apply NoDup_cons in Hnd as [Hnotin Hnd].
  rewrite addLoop_cons_fresh by (apply Hfresh; by left).
  destruct (informerAddIndexers cg _ _); [by apply wf_discarded|].
  apply IH; [apply wf_added; [done | apply Hfresh; by left] | done |].
  intros k Hk. cbn. rewrite lookup_insert_ne; [|by intros ->].
  apply Hfresh. by right.
Qed.

Lemma wf_removeLoop l : ∀ s, wf s → wf (removeLoop l s).
Proof.
  induction l as [|gvr l IH]; intros s Hwf; [done|].
  cbn [removeLoop]. by apply IH, wf_removeInformer.
Qed.

Lemma wf_discoverTypes_Locked ro cg latest s :
  wf s → wf (discoverTypes_Locked ro cg latest s).2.
Proof.
  intros Hwf. unfold discoverTypes_Locked.
  pose proof (NoDup_toAdd ro (fac s) latest) as Hnd.
  assert (∀ k, k ∈ (calculateInformersLockHeld ro (fac s) latest).1 →
               informers (fac s) !! k = None) as Hfresh
    by (intros k Hk%elem_of_toAdd; tauto).
  destruct (calculateInformersLockHeld ro (fac s) latest) as [toAdd toRemove].
  cbn [fst] in Hnd, Hfresh.
  destruct (bothEmpty toAdd toRemove); [done|].
  pose proof (wf_addLoop cg toAdd s Hwf Hnd Hfresh) as Hwf1.
  destruct (addLoop cg toAdd s) as [[err|] s1]; [done|].
  by apply wf_removeLoop.
Qed.

Lemma wf_reconcile ro cg latest s : wf s → wf (reconcile ro cg latest s).2.
Proof.
  intros Hwf. unfold reconcile.
  destruct (discoverTypes_RLocked ro latest s); [|done].
  by apply wf_discoverTypes_Locked.
Qed.

Lemma wf_discoverTypes ro cg disco s : wf s → wf (discoverTypes ro cg disco s).2.
Proof.
  intros Hwf. unfold discoverTypes.
  destruct (discover cg disco); [|done]. by apply wf_reconcile.
Qed.

Lemma wf_startLoop entries : ∀ s,
  wf s → (∀ k inf, (k, inf) ∈ entries → informers (fac s) !! k = Some inf) →
  wf (startLoop entries s).
Proof.
  induction entries as [|[gvr informer] rest IH]; intros s Hwf Hin; [done|].
  cbn [startLoop].
  destruct (default false (startedInformers (fac s) !! gvr)) eqn:Hstarted; cbn [negb].
  - apply IH; [done|]. intros k inf Hk. apply Hin. by right.
  - apply IH.
    + apply wf_runInformer; [done | apply Hin; by left |].
      destruct (informerStops (fac s) !! gvr) as [c|] eqn:Hc; [|done].
      assert (is_Some (informerStops (fac s) !! gvr)) as Hs%(wf_started s Hwf) by by eexists.
      congruence.
    + intros k inf Hk. cbn. apply Hin. by right.
Qed.

Lemma wf_Start ro s : wf s → wf (Start ro s).
Proof.
  intros Hwf. apply wf_startLoop; [done|].
  intros k inf. apply elem_of_range.
Qed.

Lemma wf_frame s s' :
  wf s →
  informers (fac s') = informers (fac s) →
  startedInformers (fac s') = startedInformers (fac s) →
  informerStops (fac s') = informerStops (fac s) →
  nextInformer (rt s') = nextInformer (rt s) → nextChan (rt s') = nextChan (rt s) →
  goroutines (rt s') = goroutines (rt s) → closed (rt s') = closed (rt s) →
  wf s'.
Proof.
  intros Hwf Hi Hst Hs Hni Hnc Hg Hc.
  split; rewrite ?Hi, ?Hst, ?Hs, ?Hni, ?Hnc, ?Hg, ?Hc; apply Hwf.
Qed.

(** ** Every step keeps a state well formed *)

Lemma wf_step cg st s : wf s → wf (step cg st s).
Proof.
  intros Hwf. destruct st as [gvr|ro latest|ro|ro arg|h|inf]; cbn [step].
  - by apply wf_informerForResourceLockHeld.
  - by apply wf_discoverTypes_Locked.
  - by apply wf_Start.
  - eapply wf_frame; [done|..]; try done; cbn; unfold AddIndexers;
      by destruct (addIndexersLoop _ _).
  - by eapply wf_frame.
  - by eapply wf_frame.
Qed.

Lemma wf_run cg steps : ∀ s, wf s → wf (run cg steps s).
Proof.
  induction steps as [|st steps IH]; intros s Hwf; [done|].
  cbn [run foldl]. by apply IH, wf_step.
Qed.

(** Every state the factory can be in is well formed. *)
Lemma wf_reachable cg steps : wf (run cg steps initState).
Proof. apply wf_run, wf_initState. Qed.

(** ** The effect of one reconciliation *)

Lemma bothEmpty_true toAdd toRemove :
  bothEmpty toAdd toRemove = true ↔ toAdd = [] ∧ toRemove = [].
Proof.
  unfold bothEmpty. rewrite bool_decide_eq_true.
  by destruct toAdd, toRemove; naive_solver.
Qed.

(** The check under the read lock changes nothing when no other goroutine
    runs in between: the section under the write lock makes the same
    check again. *)
Lemma reconcile_eq ro cg latest s :
  reconcile ro cg latest s = discoverTypes_Locked ro cg latest s.
Proof.
  unfold reconcile, discoverTypes_RLocked, discoverTypes_Locked.
  destruct (calculateInformersLockHeld ro (fac s) latest) as [toAdd toRemove].
  by destruct (bothEmpty toAdd toRemove).
Qed.

Lemma discoverTypes_Locked_eq ro cg latest s :
  discoverTypes_Locked ro cg latest s =
    match addLoop cg (calculateInformersLockHeld ro (fac s) latest).1 s with
    | (Some err, s1) => (Some err, s1)
    | (None, s1) => (None, removeLoop (calculateInformersLockHeld ro (fac s) latest).2 s1)
    end.
Proof.
  unfold discoverTypes_Locked.
  destruct (calculateInformersLockHeld ro (fac s) latest) as [toAdd toRemove].
  cbn [fst snd].
  destruct (bothEmpty toAdd toRemove) eqn:Hempty; [|done].
  by apply bothEmpty_true in Hempty as [-> ->].
Qed.

Lemma reconcile_spec ro cg latest s :
  let toAdd := (calculateInformersLockHeld ro (fac s) latest).1 in
  let toRemove := (calculateInformersLockHeld ro (fac s) latest).2 in
  let s' := (reconcile ro cg latest s).2 in
  ∃ done rest,
    toAdd = done ++ rest ∧
    (∀ k, k ∈ done → addedEntry s s' k) ∧
    (∃ new, goroutines (rt s') = goroutines (rt s) ++ new ∧
            ∀ inf stop, (inf, stop) ∈ new → infGVR inf ∈ done) ∧
    match (reconcile ro cg latest s).1 with
    | None =>
        rest = [] ∧
        (∀ k, k ∈ toRemove →
           informers (fac s') !! k = None ∧ informerStops (fac s') !! k = None ∧
           startedInformers (fac s') !! k = None) ∧
        (∀ k, k ∉ toAdd → k ∉ toRemove → sameEntry s s' k) ∧
        closed (rt s') = closed (rt s) ++ omap (λ k, informerStops (fac s) !! k) toRemove
    | Some err =>
        (∃ gvr rest' inf,
           rest = gvr :: rest' ∧ infGVR inf = gvr ∧
           informerAddIndexers cg inf (indexers (fac s)) = Some err) ∧
        (∀ k, k ∉ done → sameEntry s s' k) ∧
        closed (rt s') = closed (rt s)
    end.
Proof.
  intros toAdd toRemove. rewrite reconcile_eq, discoverTypes_Locked_eq.
  fold toAdd toRemove.
  assert (∀ k, k ∈ toAdd → informers (fac s) !! k = None) as Hfresh
    by (intros k Hk%elem_of_toAdd; tauto).
  assert (∀ k, k ∈ toRemove → k ∉ toAdd) as Hdisj.
  { intros k [[inf Hk] _]%elem_of_toRemove Hk'%Hfresh. congruence. }
  destruct (addLoop_spec cg toAdd s (NoDup_toAdd ro (fac s) latest) Hfresh)
    as (done & rest & Hsplit & Hres & _ & _ & _ & Hc & _ & _ & _ & Hsame & Hadded & Hnew).
  destruct (addLoop cg toAdd s) as [[err|] s1]; cbn [fst snd] in *.
  - exists done, rest. split_and!; done.
  - subst rest. rewrite app_nil_r in Hsplit. subst done.
    destruct (removeLoop_spec toRemove s1 (NoDup_toRemove ro (fac s) latest))
      as (Hi & Hs & Hst & Hcl & _ & _ & _ & Hni & Hnc & Hg & _).
    exists toAdd, []. split_and!.
    + by rewrite app_nil_r.
    + intros k Hk. destruct (Hadded k Hk) as (inf & stop & ? & ? & ? & ? & ? & ? & ?).
      exists inf, stop. rewrite Hi, Hs, Hst, Hni, Hnc, Hg.
      rewrite !decide_False by (intros ?%Hdisj; done). done.
    + by rewrite Hg.
    + done.
    + intros k Hk. rewrite Hi, Hs, Hst. by rewrite !decide_True.
    + intros k Hk Hk'. unfold sameEntry. rewrite Hi, Hs, Hst.
      rewrite !decide_False by done. by apply Hsame.
    + rewrite Hcl, Hc. f_equal. apply omap_ext_elem_of.
      intros k Hk. apply Hsame. by apply Hdisj.
Qed.

(** After a pass that returns no error the stored informers are those of
    the discovered set, and the pinned ones that were stored before. *)
Lemma reconcile_ok_informers ro cg latest s :
  (reconcile ro cg latest s).1 = None →
  ∀ k, is_Some (informers (fac (reconcile ro cg latest s).2) !! k) ↔
       is_Some (latest !! k) ∨ (pinned k = true ∧ is_Some (informers (fac s) !! k)).
Proof.
  intros Hok k.
  destruct (reconcile_spec ro cg latest s) as (done & rest & Hsplit & Hadded & _ & Hres).
  rewrite Hok in Hres. destruct Hres as (-> & Hremoved & Hsame & _).
  rewrite app_nil_r in Hsplit. subst done.
  set (toAdd := (calculateInformersLockHeld ro (fac s) latest).1) in *.
  set (toRemove := (calculateInformersLockHeld ro (fac s) latest).2) in *.
  destruct (decide (k ∈ toAdd)) as [Hadd|Hnadd].
  - destruct (Hadded k Hadd) as (inf & _ & -> & _).
    apply elem_of_toAdd in Hadd as [? _]. split; [by left | by eexists].
  - destruct (decide (k ∈ toRemove)) as [Hrem|Hnrem].
    + destruct (Hremoved k Hrem) as (-> & _).
      apply elem_of_toRemove in Hrem as (_ & Hpin & Hlat).
      rewrite Hlat, Hpin. split; [by intros [? ?] | intros [[? ?]|[? _]]; done].
    + destruct (Hsame k Hnadd Hnrem) as (-> & _).
      unfold toAdd in Hnadd. unfold toRemove in Hnrem.
      rewrite elem_of_toAdd in Hnadd. rewrite elem_of_toRemove in Hnrem.
      destruct (informers (fac s) !! k) as [inf|] eqn:Hk.
      * split; [|by eexists]. intros _.
        destruct (latest !! k) eqn:Hlat; [left; by eexists|].
        destruct (pinned k) eqn:Hpin; [right; by eauto|].
        exfalso. apply Hnrem. by eauto.
      * split; [by intros [? ?]|]. intros [Hlat|[_ [? ?]]]; [|done].
        exfalso. by apply Hnadd.
Qed.

(** C4.  A pinned key is never in [toRemove], whatever was discovered.
    When it has an informer before a reconciliation, it has the same
    informer, the same stop channel and the same started flag after it,
    and (in a well-formed state) that stop channel has not been closed. *)
Theorem pinned_never_removed (ro : RangeOrder) (cg : ClientGo)
    (latest : gmap GVR unit) (s : State) (gvr : GVR) :
  pinned gvr = true →
  (gvr ∉ (calculateInformersLockHeld ro (fac s) latest).2) ∧
  ∀ inf, informers (fac s) !! gvr = Some inf →
    let s' := (reconcile ro cg latest s).2 in
    sameEntry s s' gvr ∧
    (wf s → ∀ c, informerStops (fac s) !! gvr = Some c → c ∉ closed (rt s')).
Proof.
  intros Hpin.
  assert (gvr ∉ (calculateInformersLockHeld ro (fac s) latest).2) as Hnrem.
  { intros (_ & ? & _)%elem_of_toRemove. congruence. }
  split; [done|]. intros inf Hinf s'.
  assert (gvr ∉ (calculateInformersLockHeld ro (fac s) latest).1) as Hnadd.
  { intros (_ & ?)%elem_of_toAdd. congruence. }
  destruct (reconcile_spec ro cg latest s) as (done & rest & Hsplit & _ & _ & Hres).
  fold s' in Hres.
  assert (gvr ∉ done) as Hndone.
  { intros Hin. apply Hnadd. rewrite Hsplit. apply elem_of_app. by left. }
  destruct (reconcile ro cg latest s).1 as [err|].
  - destruct Hres as (_ & Hsame & Hclosed). split; [by apply Hsame|].
    intros Hwf c Hc. rewrite Hclosed. by destruct (wf_stop s Hwf gvr c Hc).
  - destruct Hres as (_ & _ & Hsame & Hclosed). split; [by apply Hsame|].
    intros Hwf c Hc. rewrite Hclosed.
    intros [Hin|Hin]%elem_of_app.
    + by destruct (wf_stop s Hwf gvr c Hc).
    + apply list_elem_of_omap in Hin as (k & Hk & Hkc).
      assert (k = gvr) as -> by by eapply (wf_stop_inj s Hwf).
      done.
Qed.

(** C2, as amended.  A reconciliation returns an error only when building
    the informer of some key of [toAdd] failed, and then it stops there:
    the keys of [toAdd] ahead of the failing one have a new informer that
    has been started, the failing key and the keys of [toAdd] after it
    have no entry, no key of [toRemove] has been touched and no channel
    has been closed.  When no informer fails to build, every key of
    [toAdd] has been added and every key of [toRemove] removed. *)
Theorem reconcile_outcome (ro : RangeOrder) (cg : ClientGo)
    (latest : gmap GVR unit) (s : State) :
  let toAdd := (calculateInformersLockHeld ro (fac s) latest).1 in
  let toRemove := (calculateInformersLockHeld ro (fac s) latest).2 in
  let s' := (reconcile ro cg latest s).2 in
  match (reconcile ro cg latest s).1 with
  | Some err =>
      ∃ done gvr rest inf,
        toAdd = done ++ gvr :: rest ∧
        infGVR inf = gvr ∧ informerAddIndexers cg inf (indexers (fac s)) = Some err ∧
        (∀ k, k ∈ done → addedEntry s s' k) ∧
        (∀ k, k ∈ gvr :: rest → informers (fac s') !! k = None) ∧
        (∀ k, k ∈ toRemove → sameEntry s s' k) ∧
        closed (rt s') = closed (rt s)
  | None =>
      (∀ k, k ∈ toAdd → addedEntry s s' k) ∧
      (∀ k, k ∈ toRemove →
         informers (fac s') !! k = None ∧ informerStops (fac s') !! k = None ∧
         startedInformers (fac s') !! k = None) ∧
      closed (rt s') = closed (rt s) ++ omap (λ k, informerStops (fac s) !! k) toRemove
  end.
Proof.
  intros toAdd toRemove s'.
  destruct (reconcile_spec ro cg latest s) as (done & rest & Hsplit & Hadded & _ & Hres).
  fold s' toAdd toRemove in Hsplit, Hadded, Hres.
  destruct (reconcile ro cg latest s).1 as [err|].
  - destruct Hres as ((gvr & rest' & inf & -> & Hgvr & Herr) & Hsame & Hclosed).
    pose proof (NoDup_toAdd ro (fac s) latest) as Hnd. fold toAdd in Hnd.
    rewrite Hsplit in Hnd. apply NoDup_app in Hnd as (_ & Hdisj & _).
    exists done, gvr, rest', inf. split_and!; try done.
    + intros k Hk.
      destruct (Hsame k) as (-> & _); [by intros ?%Hdisj|].
      assert (k ∈ toAdd) as (_ & ?)%elem_of_toAdd; [|done].
      rewrite Hsplit. apply elem_of_app. by right.
    + intros k Hk. apply Hsame. intros Hin.
      assert (k ∈ toAdd) as (_ & ?)%elem_of_toAdd
        by (rewrite Hsplit; apply elem_of_app; by left).
      apply elem_of_toRemove in Hk as ([? ?] & _). congruence.
  - destruct Hres as (-> & Hremoved & _ & Hclosed).
    rewrite app_nil_r in Hsplit. subst done. done.
Qed.

(** C5, as amended.  After a reconciliation that returned no error, a
    second one against the same discovered set computes an empty [toAdd]
    and an empty [toRemove], returns no error and leaves the whole state
    as it is: no informer is built, run or stopped, and the three maps
    are unchanged.  The same holds of a second [discoverTypes] whose
    discovery yields the same set. *)
Theorem reconcile_idempotent (ro1 ro2 : RangeOrder) (cg : ClientGo)
    (latest : gmap GVR unit) (s : State) :
  (reconcile ro1 cg latest s).1 = None →
  let s1 := (reconcile ro1 cg latest s).2 in
  calculateInformersLockHeld ro2 (fac s1) latest = ([], []) ∧
  reconcile ro2 cg latest s1 = (None, s1) ∧
  ∀ disco, discover cg disco = Ok latest → discoverTypes ro2 cg disco s1 = (None, s1).
Proof.
  intros Hok s1.
  pose proof (reconcile_ok_informers ro1 cg latest s Hok) as Hkeys. fold s1 in Hkeys.
  assert (calculateInformersLockHeld ro2 (fac s1) latest = ([], [])) as Hcalc.
  { rewrite (surjective_pairing (calculateInformersLockHeld _ _ _)). f_equal.
    - apply elem_of_nil_inv. intros k [Hlat Hnone]%elem_of_toAdd.
      assert (is_Some (informers (fac s1) !! k)) as [? ?] by (apply Hkeys; by left).
      congruence.
    - apply elem_of_nil_inv. intros k (Hsome & Hpin & Hlat)%elem_of_toRemove.
      apply Hkeys in Hsome as [[? ?]|[? _]]; congruence. }
  assert (reconcile ro2 cg latest s1 = (None, s1)) as Hrec.
  { unfold reconcile, discoverTypes_RLocked. by rewrite Hcalc. }
  split_and!; [done..|].
  intros disco Hd. unfold discoverTypes. by rewrite Hd.
Qed.

Lemma discovered_lookup keys k : is_Some (discovered keys !! k) ↔ k ∈ keys.
Proof.
  induction keys as [|k' keys IH]; cbn [discovered foldr].
  - rewrite lookup_empty. split; [by intros [? ?] | by intros ?%elem_of_nil].
  - fold (discovered keys). rewrite lookup_insert_is_Some, elem_of_cons, IH.
    destruct (decide (k' = k)); naive_solver.
Qed.

Lemma discovered_lookup_None keys k : discovered keys !! k = None ↔ k ∉ keys.
Proof. rewrite <- discovered_lookup, eq_None_not_Some. done. Qed.

Lemma NoDup_singleton_eq {A} (l : list A) (a : A) :
  NoDup l → (∀ x, x ∈ l ↔ x = a) → l = [a].
Proof.
  intros Hnd Hl. destruct l as [|x l].
  - exfalso. by eapply elem_of_nil, Hl.
  - assert (x = a) as -> by (apply Hl; by left).
    apply NoDup_cons in Hnd as [Hx _]. f_equal.
    apply elem_of_nil_inv. intros y Hy.
    assert (y = a) as -> by (apply Hl; by right). done.
Qed.

Lemma closed_removeInformer gvr s :
  closed (rt (removeInformer gvr s)) =
  closed (rt s) ++ option_list (informerStops (fac s) !! gvr).
Proof.
  unfold removeInformer. cbn [rt].
  destruct (informerStops (fac s) !! gvr); cbn; by rewrite ?app_nil_r.
Qed.

Lemma runtime_removeInformer gvr s :
  nextInformer (rt (removeInformer gvr s)) = nextInformer (rt s) ∧
  nextChan (rt (removeInformer gvr s)) = nextChan (rt s) ∧
  goroutines (rt (removeInformer gvr s)) = goroutines (rt s).
Proof. unfold removeInformer. cbn [rt]. by destruct (informerStops (fac s) !! gvr). Qed.

(** C6, as amended.  A well-formed registry is reconciled against {A, B}
    and then against {B, C}, both times without error, A, B and C being
    distinct keys that are not pinned.  Then the second pass does exactly
    two things, build and run an informer for C and remove A.  So the
    stored informers are those of B, of C and of the pinned keys that had
    one before the first pass; A has no entry and its stop channel, if it
    had one, has been closed; B keeps its informer, stop channel and
    started flag, and its stop channel is not closed; C has a new
    informer running on a new stop channel, the one goroutine launched by
    the second pass. *)
Theorem reconcile_converges (ro1 ro2 : RangeOrder) (cg : ClientGo)
    (A B C : GVR) (s0 : State) :
  A ≠ B → A ≠ C → B ≠ C →
  pinned A = false → pinned B = false → pinned C = false →
  wf s0 →
  (reconcile ro1 cg (discovered [A; B]) s0).1 = None →
  let s1 := (reconcile ro1 cg (discovered [A; B]) s0).2 in
  (reconcile ro2 cg (discovered [B; C]) s1).1 = None →
  let s2 := (reconcile ro2 cg (discovered [B; C]) s1).2 in
  s2 = removeInformer A (added C s1) ∧
  (∀ k, is_Some (informers (fac s2) !! k) ↔
        k = B ∨ k = C ∨ (pinned k = true ∧ is_Some (informers (fac s0) !! k))) ∧
  (informers (fac s2) !! A = None ∧ informerStops (fac s2) !! A = None ∧
   startedInformers (fac s2) !! A = None ∧
   closed (rt s2) = closed (rt s1) ++ option_list (informerStops (fac s1) !! A)) ∧
  (is_Some (informers (fac s1) !! B) ∧ sameEntry s1 s2 B ∧
   ∀ c, informerStops (fac s1) !! B = Some c → c ∉ closed (rt s2)) ∧
  (informers (fac s1) !! C = None ∧ addedEntry s1 s2 C ∧
   goroutines (rt s2) =
     goroutines (rt s1) ++ [(mkInformer (nextInformer (rt s1)) C, nextChan (rt s1))]).
Proof.
  intros HAB HAC HBC HpA HpB HpC Hwf0 Hok1 s1 Hok2 s2.
  pose proof (reconcile_ok_informers ro1 cg _ s0 Hok1) as Hkeys1. fold s1 in Hkeys1.
  pose proof (reconcile_ok_informers ro2 cg _ s1 Hok2) as Hkeys2. fold s2 in Hkeys2.
  pose proof (wf_reconcile ro1 cg (discovered [A; B]) s0 Hwf0) as Hwf1. fold s1 in Hwf1.
  setoid_rewrite discovered_lookup in Hkeys1.
  setoid_rewrite discovered_lookup in Hkeys2.
  assert (is_Some (informers (fac s1) !! A)) as HA1 by (apply Hkeys1; left; set_solver).
  assert (is_Some (informers (fac s1) !! B)) as HB1 by (apply Hkeys1; left; set_solver).
  assert (informers (fac s1) !! C = None) as HC1.
  { apply eq_None_not_Some. intros [Hin|[? _]]%Hkeys1; [set_solver | congruence]. }
  assert (calculateInformersLockHeld ro2 (fac s1) (discovered [B; C]) = ([C], [A])) as Hcalc.
  { rewrite (surjective_pairing (calculateInformersLockHeld _ _ _)). f_equal.
    - apply NoDup_singleton_eq; [apply NoDup_toAdd|].
      intros k. rewrite elem_of_toAdd, discovered_lookup. split.
      + intros [[->|[->|?%elem_of_nil]%elem_of_cons]%elem_of_cons Hnone]; [|done..].
        destruct HB1. congruence.
      + intros ->. split; [set_solver | done].
    - apply NoDup_singleton_eq; [apply NoDup_toRemove|].
      intros k. rewrite elem_of_toRemove, discovered_lookup_None. split.
      + intros ([Hin|[? _]]%Hkeys1 & Hpin & Hnot); [set_solver | congruence].
      + intros ->. split_and!; [done | done | set_solver]. }
  assert (s2 = removeInformer A (added C s1)) as Hs2.
  { unfold s2. revert Hok2. rewrite reconcile_eq, discoverTypes_Locked_eq, Hcalc.
    cbn [fst snd]. rewrite addLoop_cons_fresh by done.
    by destruct (informerAddIndexers cg _ _). }
  destruct (runtime_removeInformer A (added C s1)) as (Hni & Hnc & Hgor).
  assert (informerStops (fac (added C s1)) !! A = informerStops (fac s1) !! A) as HstopA.
  { cbn. by rewrite lookup_insert_ne. }
  assert (closed (rt s2) = closed (rt s1) ++ option_list (informerStops (fac s1) !! A))
    as Hclosed by (by rewrite Hs2, closed_removeInformer, HstopA).
  split_and!; try done.
  - intros k. rewrite Hkeys2, Hkeys1. split.
    + intros [Hin|[Hpin Hk]].
      * assert (k = B ∨ k = C) by (clear -Hin; set_solver). tauto.
      * destruct Hk as [Hin|?]; [|by auto]. exfalso.
        apply elem_of_cons in Hin as [->|Hin]; [congruence|].
        apply list_elem_of_singleton in Hin as ->. congruence.
    + intros [->|[->|[? ?]]].
      * left. by left.
      * left. right. by left.
      * right. auto.
  - rewrite Hs2. cbn. by rewrite lookup_delete_eq.
  - rewrite Hs2. cbn. by rewrite lookup_delete_eq.
  - rewrite Hs2. cbn. by rewrite lookup_delete_eq.
  - rewrite Hs2. unfold sameEntry. cbn.
    by rewrite !lookup_delete_ne, !lookup_insert_ne by done.
  - intros c Hc. rewrite Hclosed. intros [Hin|Hin]%elem_of_app.
    + by destruct (wf_stop s1 Hwf1 B c Hc).
    + destruct (informerStops (fac s1) !! A) as [c'|] eqn:HcA; [|by apply elem_of_nil in Hin].
      apply list_elem_of_singleton in Hin as ->.
      by apply HAB, (wf_stop_inj s1 Hwf1 A B c').
  - exists (mkInformer (nextInformer (rt s1)) C), (nextChan (rt s1)).
    rewrite Hs2, Hni, Hnc, Hgor. cbn.
    rewrite !lookup_delete_ne, !lookup_insert_eq by done.
    split_and!; try done; try lia.
    apply elem_of_app. right. by apply list_elem_of_singleton.
  - by rewrite Hs2, Hgor.
Qed.

(** ** One informer per key *)

(** C9.  [before] leads to the state in which [InformerForResource] makes
    its lookup under the read lock, [between] is what other goroutines do
    until it holds the write lock.  Whenever the key has an informer by
    then, also after a miss under the read lock, that informer is returned
    and the state is left as it is: nothing is built, nothing is stored.
    When the key has none, one informer is built, and it is stored under
    that key only if it is returned.  In every state the factory can
    reach, a stored informer was built for the key it is stored under,
    and per key at most one goroutine has not been told to stop: the one
    running the stored informer. *)
Theorem one_informer_per_key (cg : ClientGo) (before between : list Step) (gvr : GVR) :
  let s0 := run cg before initState in
  let s1 := run cg between s0 in
  (∀ inf, InformerForResource_RLocked gvr s0 = None →
          informers (fac s1) !! gvr = Some inf →
          informerForResourceLockHeld cg gvr s1 = (Ok inf, s1)) ∧
  (∀ inf, informers (fac s1) !! gvr = Some inf →
          InformerForResource cg gvr s1 = (Ok inf, s1)) ∧
  (informers (fac s1) !! gvr = None →
     let s2 := (informerForResourceLockHeld cg gvr s1).2 in
     nextInformer (rt s2) = S (nextInformer (rt s1)) ∧
     (∀ k, k ≠ gvr → informers (fac s2) !! k = informers (fac s1) !! k) ∧
     match (informerForResourceLockHeld cg gvr s1).1 with
     | Ok inf => informers (fac s2) !! gvr = Some inf ∧
                 inf = mkInformer (nextInformer (rt s1)) gvr
     | Err _ => informers (fac s2) !! gvr = None
     end) ∧
  (∀ k inf, informers (fac s1) !! k = Some inf → infGVR inf = k) ∧
  (∀ inf1 c1 inf2 c2,
      (inf1, c1) ∈ goroutines (rt s1) → (inf2, c2) ∈ goroutines (rt s1) →
      c1 ∉ closed (rt s1) → c2 ∉ closed (rt s1) →
      infGVR inf1 = infGVR inf2 → inf1 = inf2 ∧ c1 = c2) ∧
  (∀ inf c, (inf, c) ∈ goroutines (rt s1) → c ∉ closed (rt s1) →
            informers (fac s1) !! infGVR inf = Some inf).
Proof.
  intros s0 s1.
  assert (wf s1) as Hwf.
  { unfold s1, s0. apply wf_run, wf_reachable. }
  split_and!.
  - intros inf _ Hinf. by apply informerForResourceLockHeld_found.
  - intros inf Hinf. unfold InformerForResource, InformerForResource_RLocked.
    by rewrite Hinf.
  - intros Hnone. rewrite informerForResourceLockHeld_fresh by done.
    destruct (informerAddIndexers cg _ _); cbn; split_and!; try done.
    + intros k Hne. by rewrite lookup_insert_ne.
    + by rewrite lookup_insert_eq.
  - intros k inf Hinf. by destruct (wf_informer s1 Hwf k inf Hinf).
  - by apply wf_one_live_watch.
  - intros inf c Hin Hopen.
    by destruct (wf_goroutine s1 Hwf inf c Hin) as [_ [?|[? _]]].
Qed.

(** ** The claims on instances *)

(** The race of C9: the lookup under the read lock misses on the new
    factory, another goroutine stores an informer for the key, and the
    find-or-create under the write lock returns that informer. *)
Lemma one_informer_per_key_race :
  let s0 := run clientGo [] initState in
  let s1 := run clientGo [StepInformerForResource deployments] s0 in
  InformerForResource_RLocked deployments s0 = None ∧
  informerForResourceLockHeld clientGo deployments s1 = (Ok (mkInformer 0 deployments), s1).
Proof.
  split; [reflexivity|].
  apply (one_informer_per_key clientGo [] [StepInformerForResource deployments] deployments);
    reflexivity.
Defined.

(** C8 on an instance: two informers run, and the discovery call of the
    second of two workspaces fails. *)
Lemma discoverTypes_discovery_failure_witness :
  ServerPreferredResources secondTenantFails
    (logicalClusterName (mkClusterWorkspace "root" "b")) =
    Err (ErrExternal "the server is currently unable to handle the request") ∧
  ∃ err, discoverTypes mapOrder clientGo secondTenantFails twoRunning = (Some err, twoRunning).
Proof.
  split; [reflexivity|].
  apply discoverTypes_discovery_failure. right.
  exists [mkClusterWorkspace "root" "a"; mkClusterWorkspace "root" "b"],
    (mkClusterWorkspace "root" "b"),
    (ErrExternal "the server is currently unable to handle the request").
  split; [reflexivity|]. split; [|reflexivity].
  apply elem_of_cons. right. apply elem_of_cons. by left.
Defined.

(** C4 on an instance: the informers of [customresourcedefinitions] and
    of [deployments] run, and nothing at all is discovered. *)
Lemma pinned_never_removed_witness :
  pinned crdGVR = true ∧
  (crdGVR ∉ (calculateInformersLockHeld mapOrder (fac crdRunning) ∅).2) ∧
  ∀ inf, informers (fac crdRunning) !! crdGVR = Some inf →
    let s' := (reconcile mapOrder clientGo ∅ crdRunning).2 in
    sameEntry crdRunning s' crdGVR ∧
    (wf crdRunning → ∀ c, informerStops (fac crdRunning) !! crdGVR = Some c →
                          c ∉ closed (rt s')).
Proof.
  split; [reflexivity|].
  apply (pinned_never_removed mapOrder clientGo ∅ crdRunning crdGVR). reflexivity.
Defined.

(** C2 fails as worded: [deployments] and [configmaps] are discovered and
    [widgets] is not.  The first informer cannot be built, the pass
    returns that error, and [widgets], the one key of [toRemove], still
    has its informer. *)
Lemma failure_aborts_pass :
  ¬ failure_does_not_abort mapOrder clientGo (discovered [deployments; configmaps])
      widgetsRunning.
Proof.
  intros Hclaim.
  specialize (Hclaim (ErrExternal "indexer conflict") ltac:(vm_compute; reflexivity) widgets).
  assert (widgets ∈ (calculateInformersLockHeld mapOrder (fac widgetsRunning)
                       (discovered [deployments; configmaps])).2) as Hin.
  { apply elem_of_toRemove. split_and!; [vm_compute; by eexists | reflexivity | by vm_compute]. }
  specialize (Hclaim Hin). vm_compute in Hclaim. discriminate.
Qed.

(** C5 fails as worded: no informer can be built, so the first
    reconciliation against {[deployments]} returns an error, and the
    second one computes [toAdd = [deployments]] again. *)
Lemma second_pass_retries_after_failure :
  ¬ second_pass_idle mapOrder mapOrder clientGo (discovered [deployments])
      (run clientGo [StepAddIndexers mapOrder namespaceIndexer] initState).
Proof. unfold second_pass_idle. vm_compute. discriminate. Qed.

(** C5 on an instance: [widgets] is discovered twice in a row by a new
    factory, the second time with the map walked in the reverse order. *)
Lemma reconcile_idempotent_witness :
  let latest := discovered [widgets] in
  let s1 := (reconcile mapOrder clientGo latest initState).2 in
  (reconcile mapOrder clientGo latest initState).1 = None ∧
  calculateInformersLockHeld revOrder (fac s1) latest = ([], []) ∧
  reconcile revOrder clientGo latest s1 = (None, s1) ∧
  ∀ disco, discover clientGo disco = Ok latest →
           discoverTypes revOrder clientGo disco s1 = (None, s1).
Proof.
  split; [by vm_compute|].
  apply (reconcile_idempotent mapOrder revOrder clientGo (discovered [widgets]) initState).
  by vm_compute.
Defined.

(** C6 fails as worded: after {deployments, configmaps} and then
    {configmaps, secrets}, the informer of the pinned key
    [customresourcedefinitions] is still stored. *)
Lemma pinned_key_survives_convergence :
  ¬ converges_to_exactly mapOrder mapOrder clientGo deployments configmaps secrets
      crdAndDeployments.
Proof.
  intros [Hkeys _]. specialize (Hkeys crdGVR) as [Hkeys _].
  destruct Hkeys as [?|?]; [vm_compute; by eexists | discriminate..].
Qed.

(** In the same run, [deployments] never had a stop channel, and the two
    reconciliations close no channel. *)
Lemma unstarted_watch_has_no_stop_channel :
  let s1 := (reconcile mapOrder clientGo (discovered [deployments; configmaps])
               crdAndDeployments).2 in
  let s2 := (reconcile mapOrder clientGo (discovered [configmaps; secrets]) s1).2 in
  informerStops (fac s1) !! deployments = None ∧ closed (rt s2) = [].
Proof. by vm_compute. Qed.

(** C6 on an instance: [customresourcedefinitions] and [deployments]
    run; {deployments, configmaps} is discovered, then {configmaps,
    secrets}. *)
Lemma reconcile_converges_witness :
  let s1 := (reconcile mapOrder clientGo (discovered [deployments; configmaps])
               crdRunning).2 in
  let s2 := (reconcile revOrder clientGo (discovered [configmaps; secrets]) s1).2 in
  (wf crdRunning ∧
   (reconcile mapOrder clientGo (discovered [deployments; configmaps]) crdRunning).1 = None ∧
   (reconcile revOrder clientGo (discovered [configmaps; secrets]) s1).1 = None) ∧
  s2 = removeInformer deployments (added secrets s1) ∧
  (∀ k, is_Some (informers (fac s2) !! k) ↔
        k = configmaps ∨ k = secrets ∨
        (pinned k = true ∧ is_Some (informers (fac crdRunning) !! k))) ∧
  (informers (fac s2) !! deployments = None ∧
   informerStops (fac s2) !! deployments = None ∧
   startedInformers (fac s2) !! deployments = None ∧
   closed (rt s2) =
     closed (rt s1) ++ option_list (informerStops (fac s1) !! deployments)) ∧
  (is_Some (informers (fac s1) !! configmaps) ∧ sameEntry s1 s2 configmaps ∧
   ∀ c, informerStops (fac s1) !! configmaps = Some c → c ∉ closed (rt s2)) ∧
  (informers (fac s1) !! secrets = None ∧ addedEntry s1 s2 secrets ∧
   goroutines (rt s2) =
     goroutines (rt s1) ++ [(mkInformer (nextInformer (rt s1)) secrets, nextChan (rt s1))]).
Proof.
  split.
  - split_and!; [apply wf_reachable | by vm_compute | by vm_compute].
  - apply (reconcile_converges mapOrder revOrder clientGo deployments configmaps secrets
             crdRunning); try discriminate; try (vm_compute; reflexivity).
    apply wf_reachable.
Defined.

(** * Further properties of the factory *)

(** ** Start *)

Lemma filter_ext_elem_of {A} (P Q : A → Prop) `{∀ x, Decision (P x)} `{∀ x, Decision (Q x)}
    (l : list A) :
  (∀ x, x ∈ l → P x ↔ Q x) → filter P l = filter Q l.
Proof.
  induction l as [|x l IH]; intros HPQ; [done|].
  rewrite !filter_cons.
  rewrite IH by (intros y Hy; apply HPQ; by right).
  destruct (decide (P x)) as [HP|HP], (decide (Q x)) as [HQ|HQ]; try done.
  - exfalso. apply HQ, HPQ; [by left | done].
  - exfalso. apply HP, HPQ; [by left | done].
Qed.

(** The stored informers that [Start] has to run: those whose started
    flag is not set, in iteration order. *)
Lemma startLoop_spec entries : ∀ s,
  NoDup entries.*1 →
  let todo := filter (λ e, default false (startedInformers (fac s) !! e.1) = false) entries in
  let s' := startLoop entries s in
  informers (fac s') = informers (fac s) ∧ indexers (fac s') = indexers (fac s) ∧
  handlers (fac s') = handlers (fac s) ∧ terminating (fac s') = terminating (fac s) ∧
  closed (rt s') = closed (rt s) ∧ synced (rt s') = synced (rt s) ∧
  nextInformer (rt s') = nextInformer (rt s) ∧
  nextChan (rt s') = (nextChan (rt s) + length todo)%nat ∧
  goroutines (rt s') =
    goroutines (rt s) ++ imap (λ i e, (e.2, (nextChan (rt s) + i)%nat)) todo ∧
  (∀ k, k ∉ todo.*1 →
        informerStops (fac s') !! k = informerStops (fac s) !! k ∧
        startedInformers (fac s') !! k = startedInformers (fac s) !! k) ∧
  (∀ i k inf, todo !! i = Some (k, inf) →
        informerStops (fac s') !! k = Some (nextChan (rt s) + i)%nat ∧
        startedInformers (fac s') !! k = Some true).
Proof.
  induction entries as [|[gvr informer] rest IH]; intros s Hnd.
  - cbn. rewrite app_nil_r, Nat.add_0_r. split_and!; try done.
  - rewrite fmap_cons in Hnd. apply NoDup_cons in Hnd as [Hnotin Hnd]. cbn [fst] in Hnotin.
    cbn [startLoop]. rewrite filter_cons. cbn [fst].
    destruct (default false (startedInformers (fac s) !! gvr)) eqn:Hstarted; cbn [negb].
    + rewrite decide_False by done. by apply IH.
    + rewrite decide_True by done.
      destruct (IH (runInformer gvr informer s) Hnd)
        as (Hi & Hix & Hh & Ht & Hc & Hsy & Hni & Hnc & Hg & Hsame & Hnew).
      assert (filter (λ e, default false
                (startedInformers (fac (runInformer gvr informer s)) !! e.1) = false) rest =
              filter (λ e, default false (startedInformers (fac s) !! e.1) = false) rest)
        as Hfilter.
      { apply filter_ext_elem_of. intros [k inf] Hin. cbn.
        rewrite lookup_insert_ne; [done|]. intros ->. apply Hnotin.
        apply list_elem_of_fmap. by exists (k, inf). }
      rewrite Hfilter in Hnc, Hg, Hsame, Hnew. clear Hfilter.
      set (todo := filter (λ e, default false (startedInformers (fac s) !! e.1) = false) rest)
        in *.
      assert (gvr ∉ todo.*1) as Hgt.
      { intros [[k inf] [-> [_ Hin]%list_elem_of_filter]]%list_elem_of_fmap.
        apply Hnotin, list_elem_of_fmap. by exists (k, inf). }
      change (nextChan (rt (runInformer gvr informer s))) with (S (nextChan (rt s)))
        in Hnc, Hg, Hnew.
      change (goroutines (rt (runInformer gvr informer s)))
        with (goroutines (rt s) ++ [(informer, nextChan (rt s))]) in Hg.
      split_and!; try done.
      * rewrite Hnc. cbn [length]. lia.
      * rewrite Hg, imap_cons, <- app_assoc. cbn [snd app]. rewrite Nat.add_0_r.
        do 2 f_equal. apply imap_ext. intros i e _. cbn. f_equal. lia.
      * rewrite fmap_cons. cbn [fst]. intros k [Hne Hk]%not_elem_of_cons.
        destruct (Hsame k Hk) as [-> ->]. cbn. by rewrite !lookup_insert_ne by done.
      * intros [|i] k inf Hlook; cbn in Hlook.
        -- injection Hlook as <- <-. destruct (Hsame gvr Hgt) as [-> ->]. cbn.
           by rewrite !lookup_insert_eq, Nat.add_0_r.
        -- destruct (Hnew i k inf Hlook) as [-> ->]. split; [|done]. f_equal. lia.
Qed.

(** X1.  [Start] runs exactly the stored informers whose started flag is
    not set: one goroutine each, in iteration order, each on a channel
    made for it, which is stored with the flag.  An informer whose flag is
    set keeps its stop channel and gets no goroutine.  No informer is
    built or dropped and no channel is closed. *)
Theorem Start_spec (ro : RangeOrder) (s : State) :
  let todo := filter (λ e, default false (startedInformers (fac s) !! e.1) = false)
                     (range ro (informers (fac s))) in
  let s' := Start ro s in
  informers (fac s') = informers (fac s) ∧
  closed (rt s') = closed (rt s) ∧ nextInformer (rt s') = nextInformer (rt s) ∧
  goroutines (rt s') =
    goroutines (rt s) ++ imap (λ i e, (e.2, (nextChan (rt s) + i)%nat)) todo ∧
  (∀ k inf, (k, inf) ∈ todo ↔
     informers (fac s) !! k = Some inf ∧ default false (startedInformers (fac s) !! k) = false) ∧
  (∀ k, default false (startedInformers (fac s) !! k) = true →
        informerStops (fac s') !! k = informerStops (fac s) !! k ∧
        startedInformers (fac s') !! k = startedInformers (fac s) !! k) ∧
  (∀ i k inf, todo !! i = Some (k, inf) →
        informerStops (fac s') !! k = Some (nextChan (rt s) + i)%nat ∧
        startedInformers (fac s') !! k = Some true).
Proof.
  intros todo s'.
  destruct (startLoop_spec (range ro (informers (fac s))) s (range_NoDup_fst ro _))
    as (Hi & _ & _ & _ & Hc & _ & Hni & _ & Hg & Hsame & Hnew).
  fold todo in Hg, Hsame, Hnew.
  split_and!; try done.
  - intros k inf. unfold todo. rewrite list_elem_of_filter, (elem_of_range ro). cbn. tauto.
  - intros k Hk. apply Hsame.
    intros [[k' inf] [-> [Hf _]%list_elem_of_filter]]%list_elem_of_fmap.
    cbn in Hf, Hk. congruence.
Qed.

Lemma startLoop_all_started entries : ∀ s,
  (∀ e, e ∈ entries → default false (startedInformers (fac s) !! e.1) = true) →
  startLoop entries s = s.
Proof.
  induction entries as [|[gvr informer] rest IH]; intros s Hall; [done|].
  cbn [startLoop]. pose proof (Hall (gvr, informer) ltac:(by left)) as Hg. cbn [fst] in Hg.
  rewrite Hg. cbn [negb].
  apply IH. intros e He. apply Hall. by right.
Qed.

Lemma Start_started ro s k :
  is_Some (informers (fac s) !! k) →
  default false (startedInformers (fac (Start ro s)) !! k) = true.
Proof.
  intros [inf Hk].
  destruct (startLoop_spec (range ro (informers (fac s))) s (range_NoDup_fst ro _))
    as (_ & _ & _ & _ & _ & _ & _ & _ & _ & Hsame & Hnew).
  fold (Start ro s) in Hsame, Hnew.
  destruct (default false (startedInformers (fac s) !! k)) eqn:Hstarted.
  - destruct (Hsame k) as [_ ->]; [|done].
    intros [[k' inf'] [-> [Hf _]%list_elem_of_filter]]%list_elem_of_fmap.
    cbn in Hf, Hstarted. congruence.
  - assert ((k, inf) ∈ filter
              (λ e, default false (startedInformers (fac s) !! e.1) = false)
              (range ro (informers (fac s)))) as Hin.
    { apply list_elem_of_filter. split; [done | by apply (elem_of_range ro)]. }
    apply list_elem_of_lookup in Hin as [i Hi].
    by destruct (Hnew i k inf Hi) as [_ ->].
Qed.

Lemma Start_informers ro s : informers (fac (Start ro s)) = informers (fac s).
Proof.
  by destruct (startLoop_spec (range ro (informers (fac s))) s (range_NoDup_fst ro _))
    as (? & _).
Qed.

Lemma Start_running ro s k inf :
  wf s → informers (fac s) !! k = Some inf →
  ∃ c, informerStops (fac (Start ro s)) !! k = Some c ∧
       (inf, c) ∈ goroutines (rt (Start ro s)) ∧ c ∉ closed (rt (Start ro s)).
Proof.
  intros Hwf Hk.
  pose proof (wf_Start ro s Hwf) as Hwf'.
  assert (is_Some (informerStops (fac (Start ro s)) !! k)) as [c Hc].
  { apply (wf_started _ Hwf'). apply Start_started. by eexists. }
  destruct (wf_stop _ Hwf' k c Hc) as (Hopen & inf' & Hinf' & Hrun).
  rewrite Start_informers in Hinf'.
  exists c. split_and!; [done | | done]. congruence.
Qed.

(** X2.  [Start] is idempotent, whatever the iteration orders: after one
    [Start] every stored informer has its started flag set, and a second
    [Start] changes nothing. *)
Theorem Start_idempotent (ro1 ro2 : RangeOrder) (s : State) :
  (∀ k, is_Some (informers (fac s) !! k) →
        default false (startedInformers (fac (Start ro1 s)) !! k) = true) ∧
  Start ro2 (Start ro1 s) = Start ro1 s.
Proof.
  split; [intros k; apply Start_started|].
  unfold Start at 1. apply startLoop_all_started.
  intros [k inf] Hin%(elem_of_range ro2). cbn.
  apply Start_started. rewrite <- (Start_informers ro1). by eexists.
Qed.

(** X3.  In a well-formed state, after [Start] every stored informer runs:
    a goroutine runs it on the stop channel stored for its key, and that
    channel is open. *)
Theorem Start_all_running (ro : RangeOrder) (s : State) (k : GVR) (inf : Informer) :
  wf s → informers (fac s) !! k = Some inf →
  ∃ c, informerStops (fac (Start ro s)) !! k = Some c ∧
       (inf, c) ∈ goroutines (rt (Start ro s)) ∧ c ∉ closed (rt (Start ro s)).
Proof. apply Start_running. Qed.

(** X4.  [InformerForResource] is idempotent and starts nothing.  When it
    returns an informer, that informer is stored under the key, a second
    call returns it again and changes nothing, and the call itself has
    launched no goroutine, closed no channel and touched neither the stop
    channels, the started flags nor the informer of any other key. *)
Theorem InformerForResource_idempotent (cg : ClientGo) (gvr : GVR) (s s1 : State)
    (inf : Informer) :
  InformerForResource cg gvr s = (Ok inf, s1) →
  InformerForResource cg gvr s1 = (Ok inf, s1) ∧
  informers (fac s1) !! gvr = Some inf ∧
  goroutines (rt s1) = goroutines (rt s) ∧ closed (rt s1) = closed (rt s) ∧
  informerStops (fac s1) = informerStops (fac s) ∧
  startedInformers (fac s1) = startedInformers (fac s) ∧
  (∀ k, k ≠ gvr → informers (fac s1) !! k = informers (fac s) !! k).
Proof.
  unfold InformerForResource, InformerForResource_RLocked.
  destruct (informers (fac s) !! gvr) as [inf0|] eqn:Hk.
  - intros [= <- <-]. by rewrite Hk.
  - rewrite informerForResourceLockHeld_fresh by done.
    destruct (informerAddIndexers cg _ _); [done|].
    intros [= <- <-]. cbn. rewrite lookup_insert_eq.
    split_and!; try done. intros k Hne. by rewrite lookup_insert_ne.
Qed.

(** X5.  An informer that [InformerForResource] has just built is not
    running: its key has no stop channel, and every goroutine launched
    for that key has been told to stop.  After [Start] it runs, on an
    open stop channel stored for the key. *)
Theorem InformerForResource_then_Start (ro : RangeOrder) (cg : ClientGo) (gvr : GVR)
    (s s1 : State) (inf : Informer) :
  wf s → informers (fac s) !! gvr = None →
  InformerForResource cg gvr s = (Ok inf, s1) →
  informerStops (fac s1) !! gvr = None ∧
  (∀ inf' c, (inf', c) ∈ goroutines (rt s1) → infGVR inf' = gvr → c ∈ closed (rt s1)) ∧
  ∃ c, informerStops (fac (Start ro s1)) !! gvr = Some c ∧
       (inf, c) ∈ goroutines (rt (Start ro s1)) ∧ c ∉ closed (rt (Start ro s1)).
Proof.
  intros Hwf Hnone Hcall.
  assert (s1 = (informerForResourceLockHeld cg gvr s).2 ∧
          informers (fac s1) !! gvr = Some inf) as [Hs1 Hinf].
  { revert Hcall. unfold InformerForResource, InformerForResource_RLocked.
    rewrite Hnone. rewrite informerForResourceLockHeld_fresh by done.
    destruct (informerAddIndexers cg _ _); [done|].
    intros [= <- <-]. cbn. by rewrite lookup_insert_eq. }
  assert (wf s1) as Hwf1 by (rewrite Hs1; by apply wf_informerForResourceLockHeld).
  assert (informerStops (fac s1) = informerStops (fac s) ∧
          goroutines (rt s1) = goroutines (rt s) ∧ closed (rt s1) = closed (rt s))
    as (Hst & Hg & Hc).
  { rewrite Hs1, informerForResourceLockHeld_fresh by done.
    by destruct (informerAddIndexers cg _ _). }
  split_and!.
  - rewrite Hst. by apply wf_stop_None.
  - rewrite Hg, Hc. intros inf' c Hin Hgvr.
    destruct (wf_goroutine s Hwf inf' c Hin) as [_ [?|[Hi _]]]; [done|].
    rewrite Hgvr in Hi. congruence.
  - by apply Start_running.
Qed.

(** ** A whole pass *)

Lemma discover_lookup cg disco latest :
  discover cg disco = Ok latest →
  ∀ gvr, is_Some (latest !! gvr) ↔ ∃ ai, reports cg disco gvr ai ∧ observable ai.
Proof.
  unfold discover, reports.
  destruct (ListWorkspaces disco) as [wss|e]; [|done].
  pose proof (workspacesLoop_spec cg disco wss ∅) as Hloop.
  destruct (workspacesLoop cg disco wss ∅) as [latest'|e]; [|done].
  intros [= <-] gvr. rewrite Hloop, lookup_empty. split.
  - intros [[? [=]]|(ws & rs & r & gv & ai & ? & ? & ? & ? & ? & ? & ?)].
    exists ai. split; [|done]. by exists wss, ws, rs, r, gv.
  - intros (ai & (wss' & ws & rs & r & gv & [= <-] & ?) & ?).
    right. exists ws, rs, r, gv, ai. tauto.
Qed.

(** What a reconciliation leaves alone, and in which direction the rest
    moves. *)
Lemma reconcile_frame ro cg latest s :
  let s' := (reconcile ro cg latest s).2 in
  indexers (fac s') = indexers (fac s) ∧ handlers (fac s') = handlers (fac s) ∧
  terminating (fac s') = terminating (fac s) ∧ synced (rt s') = synced (rt s) ∧
  (nextInformer (rt s) ≤ nextInformer (rt s'))%nat ∧
  (nextChan (rt s) ≤ nextChan (rt s'))%nat.
Proof.
  intros s'. unfold s'. rewrite reconcile_eq, discoverTypes_Locked_eq.
  assert (∀ k, k ∈ (calculateInformersLockHeld ro (fac s) latest).1 →
               informers (fac s) !! k = None) as Hfresh
    by (intros k Hk%elem_of_toAdd; tauto).
  destruct (addLoop_spec cg _ s (NoDup_toAdd ro (fac s) latest) Hfresh)
    as (done & rest & _ & _ & Hi & Hh & Ht & _ & Hsy & Hni & Hnc & _).
  destruct (addLoop cg _ s) as [[err|] s1]; cbn [fst snd] in *; [done|].
  destruct (removeLoop_spec _ s1 (NoDup_toRemove ro (fac s) latest))
    as (_ & _ & _ & _ & Hi' & Hh' & Ht' & Hni' & Hnc' & _ & Hsy').
  rewrite Hi', Hh', Ht', Hni', Hnc', Hsy'. done.
Qed.

(** X6.  After a pass that returns no error, a type has an informer
    exactly when some workspace reports a descriptor for it that passes
    the three guards, or when it is pinned and had an informer before the
    pass. *)
Theorem discoverTypes_ok_informers (ro : RangeOrder) (cg : ClientGo) (disco : Discovery)
    (s s' : State) :
  discoverTypes ro cg disco s = (None, s') →
  ∀ k, is_Some (informers (fac s') !! k) ↔
       (∃ ai, reports cg disco k ai ∧ observable ai) ∨
       (pinned k = true ∧ is_Some (informers (fac s) !! k)).
Proof.
  unfold discoverTypes.
  destruct (discover cg disco) as [latest|e] eqn:Hd; [|done].
  intros Hrec k.
  assert ((reconcile ro cg latest s).1 = None) as Hok by by rewrite Hrec.
  pose proof (reconcile_ok_informers ro cg latest s Hok k) as Hkeys.
  rewrite Hrec in Hkeys. cbn [snd] in Hkeys.
  by rewrite Hkeys, (discover_lookup cg disco latest Hd).
Qed.

Lemma range_empty (ro : RangeOrder) `{Countable K} {V} : range ro (∅ : gmap K V) = [].
Proof.
  apply Permutation_nil_r. rewrite (range_perm ro). by rewrite map_to_list_empty.
Qed.

(** X7.  When the workspace lister returns no workspace at all, the pass
    returns no error and tears down everything that is not pinned: the
    informers left are the pinned ones that were stored, the stop channel
    of every other stored informer has been closed, and no goroutine has
    been launched. *)
Theorem discoverTypes_no_workspaces (ro : RangeOrder) (cg : ClientGo) (disco : Discovery)
    (s : State) :
  ListWorkspaces disco = Ok [] →
  let s' := (discoverTypes ro cg disco s).2 in
  (discoverTypes ro cg disco s).1 = None ∧
  (∀ k, is_Some (informers (fac s') !! k) ↔
        pinned k = true ∧ is_Some (informers (fac s) !! k)) ∧
  (∀ k c, pinned k = false → is_Some (informers (fac s) !! k) →
          informerStops (fac s) !! k = Some c → c ∈ closed (rt s')) ∧
  goroutines (rt s') = goroutines (rt s).
Proof.
  intros Hlist.
  assert (discoverTypes ro cg disco s = reconcile ro cg ∅ s) as ->
    by (unfold discoverTypes, discover; by rewrite Hlist).
  intros s'.
  assert ((calculateInformersLockHeld ro (fac s) ∅).1 = []) as HtoAdd.
  { cbn [calculateInformersLockHeld fst]. unfold rangeKeys. by rewrite range_empty. }
  destruct (reconcile_spec ro cg ∅ s) as (done & rest & Hsplit & _ & (new & Hg & Hnew) & Hres).
  rewrite HtoAdd in Hsplit. symmetry in Hsplit.
  apply app_eq_nil in Hsplit as [-> ->].
  assert ((reconcile ro cg ∅ s).1 = None) as Hok.
  { destruct (reconcile ro cg ∅ s).1; [|done]. by destruct Hres as ((? & ? & ? & ? & _) & _). }
  rewrite Hok in Hres. destruct Hres as (_ & _ & _ & Hclosed).
  split_and!.
  - done.
  - intros k. unfold s'. rewrite (reconcile_ok_informers ro cg ∅ s Hok k), lookup_empty.
    split; [intros [[? ?]|?]; done | by right].
  - intros k c Hpin Hk Hc. unfold s'. rewrite Hclosed.
    apply elem_of_app. right. apply list_elem_of_omap. exists k. split; [|done].
    apply elem_of_toRemove. by rewrite lookup_empty.
  - unfold s'. rewrite Hg. destruct new as [|[inf c] new]; [by rewrite app_nil_r|].
    exfalso. eapply elem_of_nil, (Hnew inf c). by left.
Qed.

(** X8.  What a pass never does.  It does not touch the indexers, the
    listeners, the terminating flag or what has synced.  The goroutines
    it launches come after the ones there were, and each runs an informer
    for a key that had no informer before the pass: no stored informer is
    run a second time.  The channels it closes come after the ones closed
    before, and each was the stop channel stored for a key that is not
    pinned and has no informer after the pass. *)
Theorem discoverTypes_never (ro : RangeOrder) (cg : ClientGo) (disco : Discovery)
    (s : State) :
  let s' := (discoverTypes ro cg disco s).2 in
  indexers (fac s') = indexers (fac s) ∧ handlers (fac s') = handlers (fac s) ∧
  terminating (fac s') = terminating (fac s) ∧ synced (rt s') = synced (rt s) ∧
  (∃ new, goroutines (rt s') = goroutines (rt s) ++ new ∧
          ∀ inf c, (inf, c) ∈ new → informers (fac s) !! infGVR inf = None) ∧
  (∃ stopped, closed (rt s') = closed (rt s) ++ stopped ∧
          ∀ c, c ∈ stopped →
               ∃ k, informerStops (fac s) !! k = Some c ∧ pinned k = false ∧
                    informers (fac s') !! k = None).
Proof.
  unfold discoverTypes.
  destruct (discover cg disco) as [latest|e]; cbn [snd].
  2:{ split_and!; try done.
      - exists []. rewrite app_nil_r. split; [done|]. by intros ? ? ?%elem_of_nil.
      - exists []. rewrite app_nil_r. split; [done|]. by intros ? ?%elem_of_nil. }
  destruct (reconcile_frame ro cg latest s) as (Hi & Hh & Ht & Hsy & _ & _).
  destruct (reconcile_spec ro cg latest s)
    as (done & rest & Hsplit & _ & (new & Hg & Hnew) & Hres).
  split_and!; try done.
  - exists new. split; [done|]. intros inf c Hin.
    assert (infGVR inf ∈ (calculateInformersLockHeld ro (fac s) latest).1) as Hadd.
    { rewrite Hsplit. apply elem_of_app. left. by eapply Hnew. }
    by apply elem_of_toAdd in Hadd as [_ ?].
  - destruct (reconcile ro cg latest s).1 as [err|].
    + destruct Hres as (_ & _ & Hclosed). exists []. rewrite app_nil_r.
      split; [done|]. by intros ? ?%elem_of_nil.
    + destruct Hres as (_ & Hremoved & _ & Hclosed).
      exists (omap (λ k, informerStops (fac s) !! k)
                   (calculateInformersLockHeld ro (fac s) latest).2).
      split; [done|]. intros c (k & Hk & Hc)%list_elem_of_omap.
      exists k. split_and!; [done | | by apply Hremoved].
      by apply elem_of_toRemove in Hk as (_ & ? & _).
Qed.

(** ** What holds in every reachable state *)

(** X9.  However the critical sections of concurrent callers interleave,
    no channel is closed twice, a stored stop channel is open and belongs
    to one key only, a key has a stop channel exactly when its started
    flag is set, and only a key with an informer has one; every goroutine
    has a channel of its own. *)
Theorem no_double_close (cg : ClientGo) (steps : list Step) :
  let s := run cg steps initState in
  NoDup (closed (rt s)) ∧
  (∀ k c, informerStops (fac s) !! k = Some c → c ∉ closed (rt s)) ∧
  (∀ k k' c, informerStops (fac s) !! k = Some c →
             informerStops (fac s) !! k' = Some c → k = k') ∧
  (∀ k, is_Some (informerStops (fac s) !! k) ↔
        default false (startedInformers (fac s) !! k) = true) ∧
  (∀ k, is_Some (informerStops (fac s) !! k) → is_Some (informers (fac s) !! k)) ∧
  NoDup (goroutines (rt s)).*2.
Proof.
  intros s. pose proof (wf_reachable cg steps) as Hwf. fold s in Hwf.
  split_and!.
  - apply (wf_closed s Hwf).
  - intros k c Hc. by destruct (wf_stop s Hwf k c Hc).
  - apply (wf_stop_inj s Hwf).
  - intros k. symmetry. apply (wf_started s Hwf).
  - intros k [c Hc]. destruct (wf_stop s Hwf k c Hc) as (_ & inf & ? & _). by eexists.
  - apply (wf_chans s Hwf).
Qed.

(** ** Polling and teardown *)

Lemma teardownLoop_spec stops : ∀ r,
  closed (teardownLoop stops r) = closed r ++ stops.*2 ∧
  goroutines (teardownLoop stops r) = goroutines r ∧
  nextChan (teardownLoop stops r) = nextChan r ∧
  nextInformer (teardownLoop stops r) = nextInformer r ∧
  synced (teardownLoop stops r) = synced r.
Proof.
  induction stops as [|[k c] rest IH]; intros r; cbn [teardownLoop].
  - by rewrite fmap_nil, app_nil_r.
  - destruct (IH (closeChan c r)) as (-> & -> & -> & -> & ->).
    rewrite fmap_cons. cbn. by rewrite <- app_assoc.
Qed.

Lemma wf_pollImmediate cg attempts : ∀ s, wf s → wf (pollImmediate cg attempts s).2.
Proof.
  induction attempts as [|[ro disco] rest IH]; intros s Hwf; [done|].
  cbn [pollImmediate].
  pose proof (wf_discoverTypes ro cg disco s Hwf) as Hwf1.
  destruct (discoverTypes ro cg disco s) as [[err|] s1]; [by apply IH | done].
Qed.

Lemma wf_tickerLoop cg ticks : ∀ s, wf s → wf (tickerLoop cg ticks s).
Proof.
  induction ticks as [|[ro disco] rest IH]; intros s Hwf; [done|].
  cbn [tickerLoop]. by apply IH, wf_discoverTypes.
Qed.

Lemma range_NoDup (ro : RangeOrder) `{Countable K} {V} (m : gmap K V) : NoDup (range ro m).
Proof. rewrite (range_perm ro). apply NoDup_map_to_list. Qed.

Lemma wf_teardown ro s :
  wf s →
  (∀ inf c, (inf, c) ∈ goroutines (rt (teardown ro s)) → c ∈ closed (rt (teardown ro s))) ∧
  NoDup (closed (rt (teardown ro s))).
Proof.
  intros Hwf. unfold teardown. cbn [rt].
  destruct (teardownLoop_spec (range ro (informerStops (fac s))) (rt s))
    as (-> & -> & _).
  split.
  - intros inf c Hin. apply elem_of_app.
    destruct (wf_goroutine s Hwf inf c Hin) as [_ [?|[_ Hc]]]; [by left|].
    right. apply list_elem_of_fmap. exists (infGVR inf, c).
    split; [done | by apply (elem_of_range ro)].
  - apply NoDup_app. split_and!.
    + apply (wf_closed s Hwf).
    + intros c Hclosed [[k c'] [-> Hin%(elem_of_range ro)]]%list_elem_of_fmap.
      by destruct (wf_stop s Hwf k c' Hin).
    + apply NoDup_fmap_2_strong; [|apply range_NoDup].
      intros [k c] [k' c'] Hin%(elem_of_range ro) Hin'%(elem_of_range ro) Heq.
      cbn in Heq. subst c'. f_equal. by apply (wf_stop_inj s Hwf k k' c).
Qed.

(** X10.  [StartPolling] from a well-formed state.  When a first pass
    succeeds before the context is done, then at the end every goroutine
    the factory has launched has been told to stop, no channel has been
    closed twice, and the three maps are what the last tick left: the
    teardown deletes nothing.  When the context is done before any pass
    has succeeded, there is no teardown: the state is the one the failed
    attempts left, and it is well formed. *)
Theorem StartPolling_cleanup (cg : ClientGo) (attempts ticks : list (RangeOrder * Discovery))
    (roDone : RangeOrder) (s : State) :
  wf s →
  let s' := StartPolling cg attempts ticks roDone s in
  if (pollImmediate cg attempts s).1
  then (∀ inf c, (inf, c) ∈ goroutines (rt s') → c ∈ closed (rt s')) ∧
       NoDup (closed (rt s')) ∧
       fac s' = fac (tickerLoop cg ticks (pollImmediate cg attempts s).2)
  else s' = (pollImmediate cg attempts s).2 ∧ wf s'.
Proof.
  intros Hwf s'. unfold s', StartPolling.
  pose proof (wf_pollImmediate cg attempts s Hwf) as Hwf1.
  destruct (pollImmediate cg attempts s) as [[] s1]; cbn [fst snd] in *; [|done].
  pose proof (wf_tickerLoop cg ticks s1 Hwf1) as Hwf2.
  destruct (wf_teardown roDone _ Hwf2). done.
Qed.

(** ** Iteration order does not matter *)

Lemma rangeKeys_perm (ro1 ro2 : RangeOrder) `{Countable K} {V} (m : gmap K V) :
  rangeKeys ro1 m ≡ₚ rangeKeys ro2 m.
Proof. unfold rangeKeys. by rewrite !range_perm. Qed.

(** X11.  Whatever the order in which the two maps are walked,
    [calculateInformersLockHeld] returns the same keys: the two [toAdd]
    lists are permutations of each other, and so are the two [toRemove]
    lists.  Neither list has a duplicate, and no key is in both. *)
Theorem calculateInformersLockHeld_order (ro1 ro2 : RangeOrder) (d : Factory)
    (latest : gmap GVR unit) :
  (calculateInformersLockHeld ro1 d latest).1 ≡ₚ (calculateInformersLockHeld ro2 d latest).1 ∧
  (calculateInformersLockHeld ro1 d latest).2 ≡ₚ (calculateInformersLockHeld ro2 d latest).2 ∧
  NoDup (calculateInformersLockHeld ro1 d latest).1 ∧
  NoDup (calculateInformersLockHeld ro1 d latest).2 ∧
  ∀ k, k ∈ (calculateInformersLockHeld ro1 d latest).1 →
       k ∉ (calculateInformersLockHeld ro1 d latest).2.
Proof.
  split_and!.
  - cbn [calculateInformersLockHeld fst]. by rewrite (rangeKeys_perm ro1 ro2).
  - cbn [calculateInformersLockHeld snd]. by rewrite (rangeKeys_perm ro1 ro2).
  - apply NoDup_toAdd.
  - apply NoDup_toRemove.
  - intros k [_ Hnone]%elem_of_toAdd [[inf Hk] _]%elem_of_toRemove. congruence.
Qed.

(** What [Listers] returns when the factory is not terminating. *)
Lemma Listers_char ro s :
  terminating (fac s) = false →
  (∀ gvr l, (Listers ro s).1 !! gvr = Some l ↔
     ∃ inf, informers (fac s) !! gvr = Some inf ∧
            HasSynced (rt s) inf = true ∧ l = ListerOf inf) ∧
  (Listers ro s).2 =
    (filter (λ e, HasSynced (rt s) e.2 = false) (range ro (informers (fac s)))).*1.
Proof.
  intros Hterm. unfold Listers. rewrite Hterm.
  destruct (listersLoop_spec (rt s) (range ro (informers (fac s))) ∅ []
              (range_NoDup_fst ro _) (λ k _, lookup_empty k)) as [Hl Hn].
  split; [|by rewrite Hn].
  intros gvr l. rewrite Hl, lookup_empty. split.
  - intros [?|(inf & Hin%(elem_of_range ro) & ?)]; [done|]. by exists inf.
  - intros (inf & Hin & ?). right. exists inf. split; [by apply (elem_of_range ro) | done].
Qed.

Lemma elem_of_notSynced ro s gvr :
  terminating (fac s) = false →
  gvr ∈ (Listers ro s).2 ↔
  ∃ inf, informers (fac s) !! gvr = Some inf ∧ HasSynced (rt s) inf = false.
Proof.
  intros Hterm. destruct (Listers_char ro s Hterm) as [_ ->].
  rewrite list_elem_of_fmap. split.
  - intros [[g inf] [-> [Hs Hin%(elem_of_range ro)]%list_elem_of_filter]]. by exists inf.
  - intros (inf & Hin & Hs). exists (gvr, inf). split; [done|].
    apply list_elem_of_filter. split; [done | by apply (elem_of_range ro)].
Qed.

(** X12.  [Listers] does not depend on the order in which the informer map
    is walked: the lister maps are equal and the two [notSynced] slices
    are permutations of each other. *)
Theorem Listers_order (ro1 ro2 : RangeOrder) (s : State) :
  (Listers ro1 s).1 = (Listers ro2 s).1 ∧ (Listers ro1 s).2 ≡ₚ (Listers ro2 s).2.
Proof.
  destruct (terminating (fac s)) eqn:Hterm.
  - unfold Listers. by rewrite Hterm.
  - destruct (Listers_char ro1 s Hterm) as [Hl1 ->].
    destruct (Listers_char ro2 s Hterm) as [Hl2 ->].
    split.
    + apply map_eq. intros gvr. apply option_eq. intros l. by rewrite Hl1, Hl2.
    + by rewrite !range_perm.
Qed.

(** X13.  Readiness follows the life of a watch.  The factory is not
    terminating and only informers that exist have synced.  After a
    reconciliation without error, every key it added is reported in
    [notSynced] and has no lister, and every key it removed is in neither
    result.  Once the informer stored for a key has finished its initial
    list, the key has that informer's lister and is not in [notSynced]. *)
Theorem readiness_follows_watch (ro ro' : RangeOrder) (cg : ClientGo)
    (latest : gmap GVR unit) (s : State) :
  terminating (fac s) = false →
  (∀ i, i ∈ synced (rt s) → (i < nextInformer (rt s))%nat) →
  (reconcile ro cg latest s).1 = None →
  let s' := (reconcile ro cg latest s).2 in
  (∀ k, k ∈ (calculateInformersLockHeld ro (fac s) latest).1 →
        k ∈ (Listers ro' s').2 ∧ (Listers ro' s').1 !! k = None) ∧
  (∀ k, k ∈ (calculateInformersLockHeld ro (fac s) latest).2 →
        (k ∉ (Listers ro' s').2) ∧ (Listers ro' s').1 !! k = None) ∧
  (∀ k inf, informers (fac s') !! k = Some inf →
        let s'' := mkState (fac s') (initialSyncDone inf (rt s')) in
        (Listers ro' s'').1 !! k = Some (ListerOf inf) ∧ k ∉ (Listers ro' s'').2).
Proof.
  intros Hterm Hsynced Hok s'.
  destruct (reconcile_frame ro cg latest s) as (_ & _ & Ht & Hsy & _ & _).
  fold s' in Ht, Hsy.
  assert (terminating (fac s') = false) as Hterm' by congruence.
  destruct (reconcile_spec ro cg latest s) as (done & rest & Hsplit & Hadded & _ & Hres).
  fold s' in Hadded, Hres. rewrite Hok in Hres.
  destruct Hres as (-> & Hremoved & _ & _). rewrite app_nil_r in Hsplit. subst done.
  destruct (Listers_char ro' s' Hterm') as [Hl _].
  split_and!.
  - intros k Hk. destruct (Hadded k Hk) as (inf & stop & Hinf & _ & [Hid _] & _).
    assert (HasSynced (rt s') inf = false) as Hns.
    { unfold HasSynced. rewrite Hsy. apply bool_decide_eq_false.
      intros Hin%Hsynced. lia. }
    split.
    + apply elem_of_notSynced; [done|]. by exists inf.
    + destruct ((Listers ro' s').1 !! k) as [l|] eqn:Hlk; [|done].
      apply Hl in Hlk as (inf' & Hinf' & Hs & _). congruence.
  - intros k Hk. destruct (Hremoved k Hk) as (Hnone & _). split.
    + rewrite elem_of_notSynced by done. intros (inf & ? & _). congruence.
    + destruct ((Listers ro' s').1 !! k) as [l|] eqn:Hlk; [|done].
      apply Hl in Hlk as (inf' & Hinf' & _). congruence.
  - intros k inf Hinf s''.
    assert (HasSynced (rt s'') inf = true) as Hs.
    { unfold s'', HasSynced. cbn. apply bool_decide_eq_true. set_solver. }
    assert (terminating (fac s'') = false) as Hterm'' by done.
    split.
    + apply (Listers_char ro' s'' Hterm''). by exists inf.
    + rewrite elem_of_notSynced by done. intros (inf' & Hinf' & Hns).
      cbn in Hinf'. congruence.
Qed.

(** ** Indexers accumulate *)

Lemma addIndexersLoop_keeps entries : ∀ cur,
  let cur' := (addIndexersLoop entries cur).2 in
  (∀ name f, cur !! name = Some f → cur' !! name = Some f) ∧
  (∀ name f, cur' !! name = Some f → cur !! name = Some f ∨ (name, f) ∈ entries).
Proof.
  induction entries as [|[name indexer] rest IH]; intros cur; cbn [addIndexersLoop].
  - cbn. split; [done | by left].
  - destruct (cur !! name) as [old|] eqn:Hname; cbn [snd].
    + split; [done | by left].
    + destruct (IH (<[name := indexer]> cur)) as [Hkeep Hfrom]. split.
      * intros n f Hn. apply Hkeep. rewrite lookup_insert_ne; [done|]. intros ->. congruence.
      * intros n f Hn. apply Hfrom in Hn as [Hn|Hn]; [|right; by right].
        apply lookup_insert_Some in Hn as [[<- <-]|[_ Hn]]; [right; by left | by left].
Qed.

(** X14.  [AddIndexers] never removes or replaces a registered indexer,
    with or without an error, and registers nothing that is not in its
    argument.  After the call the indexer map is not nil, and no other
    field of the factory has changed. *)
Theorem AddIndexers_keeps (ro : RangeOrder) (arg : gmap string IndexFunc) (d : Factory) :
  let cur := default ∅ (indexers d) in
  let d' := (AddIndexers ro arg d).2 in
  ∃ new, indexers d' = Some new ∧
    (∀ name f, cur !! name = Some f → new !! name = Some f) ∧
    (∀ name f, new !! name = Some f → cur !! name = Some f ∨ arg !! name = Some f) ∧
    d' = set_indexers (Some new) d.
Proof.
  intros cur d'. unfold d', AddIndexers.
  replace (match indexers d with Some m => m | None => ∅ end) with cur
    by (subst cur; by destruct (indexers d)).
  destruct (addIndexersLoop_keeps (range ro arg) cur) as [Hkeep Hfrom].
  destruct (addIndexersLoop (range ro arg) cur) as [err new]. cbn [snd] in *.
  exists new. split_and!; try done.
  intros name f Hn. apply Hfrom in Hn as [?|Hn]; [by left|].
  right. by apply (elem_of_range ro).
Qed.

(** X15.  Registering the same indexers a second time fails at once.
    After an [AddIndexers] that returned no error, a second call with the
    same, non-empty argument returns the error of the first name it
    visits and leaves the factory as it is, whatever the iteration
    order.  An empty argument never fails. *)
Theorem AddIndexers_twice (ro ro' : RangeOrder) (arg : gmap string IndexFunc)
    (d d1 : Factory) :
  AddIndexers ro arg d = (None, d1) →
  (arg = ∅ → AddIndexers ro' arg d1 = (None, d1)) ∧
  (arg ≠ ∅ →
     ∃ name, AddIndexers ro' arg d1 = (Some (ErrIndexerExists name), d1) ∧
             is_Some (arg !! name)).
Proof.
  unfold AddIndexers at 1.
  set (cur := match indexers d with Some m => m | None => ∅ end).
  pose proof (addIndexersLoop_spec (range ro arg) cur (range_NoDup_fst ro arg)) as Hloop.
  destruct (addIndexersLoop (range ro arg) cur) as [[err|] cur1]; [done|].
  destruct Hloop as [_ ->]. rewrite list_to_map_range. intros [= <-].
  unfold AddIndexers. cbn [indexers set_indexers]. split.
  - intros ->. by rewrite range_empty.
  - intros Hne. destruct (range ro' arg) as [|[name f] rest] eqn:Hrange.
    + exfalso. apply Hne. rewrite <- (list_to_map_range ro' arg), Hrange. done.
    + assert (arg !! name = Some f) as Hname.
      { apply (elem_of_range ro'). rewrite Hrange. by left. }
      exists name. split; [|by eexists]. cbn [addIndexersLoop].
      by rewrite (lookup_union_Some_l arg cur name f Hname).
Qed.

(** ** Discovery does not depend on the order of the workspaces *)

Lemma listsLoop_failing cg rs r e0 : ∀ latest,
  r ∈ rs → ParseGroupVersion cg (GroupVersionOf r) = Err e0 →
  ∃ e, listsLoop cg rs latest = Err e.
Proof.
  induction rs as [|r' rest IH]; intros latest Hin Herr; [by apply elem_of_nil in Hin|].
  cbn [listsLoop]. apply elem_of_cons in Hin as [->|Hin].
  - rewrite Herr. by eexists.
  - destruct (ParseGroupVersion cg (GroupVersionOf r')); [|by eexists]. by apply IH.
Qed.

Lemma workspacesLoop_failing cg disco wss ws e0 : ∀ latest,
  ws ∈ wss →
  (ServerPreferredResources disco (logicalClusterName ws) = Err e0 ∨
   ∃ rs r, ServerPreferredResources disco (logicalClusterName ws) = Ok rs ∧
           r ∈ rs ∧ ParseGroupVersion cg (GroupVersionOf r) = Err e0) →
  ∃ e, workspacesLoop cg disco wss latest = Err e.
Proof.
  induction wss as [|w rest IH]; intros latest Hin Herr; [by apply elem_of_nil in Hin|].
  cbn [workspacesLoop]. apply elem_of_cons in Hin as [->|Hin].
  - destruct Herr as [->|(rs & r & -> & Hr & Hparse)]; [by eexists|].
    destruct (listsLoop_failing cg rs r e0 latest Hr Hparse) as [e ->]. by eexists.
  - destruct (ServerPreferredResources disco (logicalClusterName w)) as [rs|]; [|by eexists].
    destruct (listsLoop cg rs latest); [|by eexists].
    by apply IH.
Qed.

(** X16.  The discovered set is a union over the workspaces: listing the
    same workspaces in another order gives the same set, and a pass fails
    for one order exactly when it fails for the other (the error returned
    is the first one met, which may differ). *)
Theorem discover_workspace_order (cg : ClientGo) (spr : string → result (list APIResourceList))
    (wss wss' : list ClusterWorkspace) :
  wss ≡ₚ wss' →
  match discover cg (mkDiscovery (Ok wss) spr), discover cg (mkDiscovery (Ok wss') spr) with
  | Ok latest, Ok latest' => latest = latest'
  | Err _, Err _ => True
  | _, _ => False
  end.
Proof.
  intros Hperm. unfold discover. cbn [ListWorkspaces].
  pose proof (workspacesLoop_spec cg (mkDiscovery (Ok wss) spr) wss ∅) as H1.
  pose proof (workspacesLoop_spec cg (mkDiscovery (Ok wss') spr) wss' ∅) as H2.
  destruct (workspacesLoop cg (mkDiscovery (Ok wss) spr) wss ∅) as [l1|e1] eqn:E1,
           (workspacesLoop cg (mkDiscovery (Ok wss') spr) wss' ∅) as [l2|e2] eqn:E2.
  - apply map_eq. intros gvr.
    assert (is_Some (l1 !! gvr) ↔ is_Some (l2 !! gvr)) as Hiff.
    { rewrite H1, H2. cbn [ServerPreferredResources].
      split; (intros [?|(ws & rs & r & gv & ai & Hin & Hrest)]; [by left|]);
        right; exists ws, rs, r, gv, ai; (split; [|done]).
      - by rewrite <- Hperm.
      - by rewrite Hperm. }
    destruct (l1 !! gvr) as [[]|], (l2 !! gvr) as [[]|]; try done.
    + exfalso. by eapply is_Some_None, Hiff.
    + exfalso. by eapply is_Some_None, Hiff.
  - destruct H2 as (ws & Hin & Hfail). rewrite <- Hperm in Hin.
    destruct (workspacesLoop_failing cg (mkDiscovery (Ok wss) spr) wss ws e2 ∅ Hin Hfail)
      as [e He]. congruence.
  - destruct H1 as (ws & Hin & Hfail). rewrite Hperm in Hin.
    destruct (workspacesLoop_failing cg (mkDiscovery (Ok wss') spr) wss' ws e1 ∅ Hin Hfail)
      as [e He]. congruence.
  - done.
Qed.

(** ** The first pass of a new factory *)

(** X17.  On a new factory, a pass that returns no error leaves an
    informer for exactly the types discovered, each one running on an open
    stop channel of its own with its started flag set; no channel has
    been closed. *)
Theorem discoverTypes_on_new_factory (ro : RangeOrder) (cg : ClientGo) (disco : Discovery)
    (s' : State) :
  discoverTypes ro cg disco initState = (None, s') →
  (∀ k, is_Some (informers (fac s') !! k) ↔ ∃ ai, reports cg disco k ai ∧ observable ai) ∧
  (∀ k inf, informers (fac s') !! k = Some inf →
     ∃ c, informerStops (fac s') !! k = Some c ∧ (inf, c) ∈ goroutines (rt s') ∧
          startedInformers (fac s') !! k = Some true) ∧
  closed (rt s') = [].
Proof.
  unfold discoverTypes.
  destruct (discover cg disco) as [latest|e] eqn:Hd; [|done].
  intros Hrec.
  assert ((reconcile ro cg latest initState).1 = None) as Hok by by rewrite Hrec.
  assert (s' = (reconcile ro cg latest initState).2) as Hs' by by rewrite Hrec.
  pose proof (reconcile_ok_informers ro cg latest initState Hok) as Hkeys.
  destruct (reconcile_spec ro cg latest initState)
    as (done & rest & Hsplit & Hadded & _ & Hres).
  rewrite Hok in Hres. destruct Hres as (-> & _ & _ & Hclosed).
  rewrite app_nil_r in Hsplit. subst done.
  rewrite <- Hs' in Hkeys, Hadded, Hclosed.
  assert (∀ k, is_Some (informers (fac s') !! k) ↔ is_Some (latest !! k)) as Hkeys'.
  { intros k. rewrite Hkeys. cbn. rewrite lookup_empty.
    split; [intros [?|[_ [? ?]]]; done | by left]. }
  split_and!.
  - intros k. by rewrite Hkeys', (discover_lookup cg disco latest Hd).
  - intros k inf Hinf.
    assert (k ∈ (calculateInformersLockHeld ro (fac initState) latest).1) as Hk.
    { apply elem_of_toAdd. split; [apply Hkeys'; by eexists | apply lookup_empty]. }
    destruct (Hadded k Hk) as (inf' & c & Hinf' & _ & _ & Hc & _ & Hst & Hrun).
    exists c. split_and!; [done | congruence | done].
  - rewrite Hclosed. cbn [calculateInformersLockHeld snd]. unfold rangeKeys.
    cbn. by rewrite range_empty.
Qed.

(** ** Validation of the embedded etcd options *)

(** X18.  [Validate] looks at nothing while the embedded etcd is
    disabled.  When it is enabled, each of the three errors is reported
    exactly when its cause is there (an empty peer port, an empty client
    port, a non-empty list of metrics URLs that does not parse), each at
    most once and in that order; so the options [NewEmbeddedEtcd] builds
    are valid once enabled. *)
Theorem Validate_spec (NewURLs : list string → option error) (e : EmbeddedEtcd) :
  (Enabled e = false → Validate NewURLs e = []) ∧
  (Enabled e = true →
     Validate NewURLs e =
       (if bool_decide (PeerPort e = "") then [PeerPortMissing] else []) ++
       (if bool_decide (ClientPort e = "") then [ClientPortMissing] else []) ++
       match ListenMetricsURLs e with
       | [] => []
       | _ :: _ => match NewURLs (ListenMetricsURLs e) with
                   | Some err => [MetricsURLsParseFailure err]
                   | None => []
                   end
       end) ∧
  (Validate NewURLs e = [] ↔
     Enabled e = false ∨
     (PeerPort e ≠ "" ∧ ClientPort e ≠ "" ∧
      (ListenMetricsURLs e = [] ∨ NewURLs (ListenMetricsURLs e) = None))) ∧
  (∀ join rootDir,
     let d := NewEmbeddedEtcd join rootDir in
     Validate NewURLs
       (mkEmbeddedEtcd true (Directory d) (PeerPort d) (ClientPort d) (ListenMetricsURLs d)
                       (WalSizeBytes d) (QuotaBackendBytes d) (ForceNewCluster d)) = []).
Proof.
  split_and!.
  - unfold Validate. by intros ->.
  - unfold Validate. intros ->.
    destruct (ListenMetricsURLs e) as [|u us]; cbn [length];
      repeat case_bool_decide; try lia;
      try destruct (NewURLs _); by rewrite ?app_nil_r.
  - unfold Validate. destruct (Enabled e); [|by split; [left|]].
    destruct (ListenMetricsURLs e) as [|u us] eqn:Hurls; cbn [length];
      repeat case_bool_decide; try lia;
      try destruct (NewURLs _) eqn:Hnew; cbn; split; try done;
      try (intros [?|(? & ? & [?|?])]; done);
      try (intros _; right; split_and!; auto; done).
  - done.
Qed.

(** ** Routing to a shard *)

Lemma Contains_slash_cons c s :
  Contains (String c s) "/" = Ascii.eqb c "/" || Contains s "/".
Proof.
  cbn [Contains String.prefix].
  destruct (ascii_dec "/" c) as [<-|Hne].
  - by destruct s.
  - cbn. destruct (Ascii.eqb c "/") eqn:Heq; [|done].
    apply Ascii.eqb_eq in Heq. congruence.
Qed.

Lemma append_nil_l (s : string) : "" +:+ s = s.
Proof. reflexivity. Qed.

Lemma append_cons_l c (s t : string) : String c s +:+ t = String c (s +:+ t).
Proof. reflexivity. Qed.

(** Splitting at the first slash inverts joining with a slash. *)
Lemma splitSlash_join a b :
  Contains a "/" = false →
  Contains (a +:+ "/" +:+ b) "/" = true ∧ splitSlash (a +:+ "/" +:+ b) = (a, b).
Proof.
  induction a as [|c a IH]; intros Hno.
  - rewrite append_nil_l, append_cons_l, append_nil_l.
    split; [by rewrite Contains_slash_cons | done].
  - rewrite Contains_slash_cons in Hno. apply orb_false_iff in Hno as [Hc Ha].
    destruct (IH Ha) as [IHc IHs].
    rewrite append_cons_l.
    rewrite Contains_slash_cons, IHc, orb_true_r. split; [done|].
    cbn [splitSlash]. by rewrite Hc, IHs.
Qed.

Lemma splitSlash_spec s :
  Contains s "/" = true →
  s = (splitSlash s).1 +:+ "/" +:+ (splitSlash s).2 ∧ Contains (splitSlash s).1 "/" = false.
Proof.
  induction s as [|c s IH]; [done|].
  rewrite Contains_slash_cons. cbn [splitSlash].
  destruct (Ascii.eqb c "/") eqn:Hc.
  - intros _. apply Ascii.eqb_eq in Hc as ->. done.
  - cbn [orb]. intros Hs. destruct (IH Hs) as [Heq Hno].
    destruct (splitSlash s) as [a b]. cbn [fst snd] in *.
    split; [by rewrite append_cons_l, <- Heq|].
    by rewrite Contains_slash_cons, Hc, Hno.
Qed.

(** Three pieces come out exactly for a string with two slashes or more,
    cut at the first two. *)
Lemma SplitN_slash_3 s a b c :
  SplitN_slash s 3 = [a; b; c] ↔
  s = a +:+ "/" +:+ b +:+ "/" +:+ c ∧ Contains a "/" = false ∧ Contains b "/" = false.
Proof.
  cbn [SplitN_slash]. split.
  - destruct (Contains s "/") eqn:Hs; [|done].
    destruct (splitSlash_spec s Hs) as [Heq Hno].
    destruct (splitSlash s) as [a' s']. cbn [fst snd] in *.
    destruct (Contains s' "/") eqn:Hs'; [|done].
    destruct (splitSlash_spec s' Hs') as [Heq' Hno'].
    destruct (splitSlash s') as [b' c']. cbn [fst snd] in *.
    intros [= <- <- <-]. split_and!; [|done..]. by rewrite <- Heq', <- Heq.
  - intros (-> & Ha & Hb).
    destruct (splitSlash_join a (b +:+ "/" +:+ c) Ha) as [-> ->].
    by destruct (splitSlash_join b c Hb) as [-> ->].
Qed.

Lemma SplitN_slash_3_length s :
  length (SplitN_slash s 3) = 3 ↔ ∃ a b c, SplitN_slash s 3 = [a; b; c].
Proof.
  split; [|by intros (a & b & c & ->)].
  destruct (SplitN_slash s 3) as [|a [|b [|c [|? ?]]]]; try done. by exists a, b, c.
Qed.

Lemma TrimLeft_slashes n s :
  TrimLeft (Nat.iter n (String "/") s) "/" = TrimLeft s "/".
Proof.
  induction n as [|n IH]; [done|].
  change (Nat.iter (S n) (String "/") s) with (String "/" (Nat.iter n (String "/") s)).
  cbn [TrimLeft]. rewrite bool_decide_eq_true_2; [done|]. by left.
Qed.

(** X19.  The handler passes a request on exactly when its path, leading
    slashes dropped, is [clusters/<name>/<rest>] with no slash in the
    name, the authorizer attributes are there, the name is a valid
    cluster, the index knows it and the shard URL it gives parses; the
    request then goes on with that URL. *)
Theorem shardHandler_proxies {URL} (deps : ShardDeps URL) (attributes : option error)
    (path : string) (u : URL) :
  shardHandler deps attributes path = Proxied u ↔
  ∃ name rest shardURLString,
    TrimLeft path "/" = "clusters" +:+ "/" +:+ name +:+ "/" +:+ rest ∧
    Contains name "/" = false ∧
    attributes = None ∧ IsValidCluster deps name = true ∧
    IndexLookup deps name = Some shardURLString ∧
    urlParse deps shardURLString = Ok u.
Proof.
  unfold shardHandler. split.
  - case_bool_decide as Hshape; [done|].
    assert (length (SplitN_slash (TrimLeft path "/") 3) = 3) as Hlen.
    { destruct (decide (length (SplitN_slash (TrimLeft path "/") 3) = 3)); [done|].
      exfalso. apply Hshape. by left. }
    assert (SplitN_slash (TrimLeft path "/") 3 !! 0%nat = Some "clusters") as Hhead.
    { destruct (decide (SplitN_slash (TrimLeft path "/") 3 !! 0%nat = Some "clusters"));
        [done|]. exfalso. apply Hshape. by right. }
    clear Hshape.
    apply SplitN_slash_3_length in Hlen as (a & b & c & Hsplit).
    rewrite Hsplit in Hhead |- *. cbn in Hhead |- *.
    injection Hhead as ->.
    apply SplitN_slash_3 in Hsplit as (Hpath & _ & Hb).
    destruct attributes; [done|].
    destruct (IsValidCluster deps b) eqn:Hvalid; [|done]. cbn [negb].
    destruct (IndexLookup deps b) as [us|] eqn:Hlook; [|done].
    destruct (urlParse deps us) as [u'|] eqn:Hparse; [|done].
    intros [= ->]. by exists b, c, us.
  - intros (name & rest & us & Hpath & Hname & -> & Hvalid & Hlook & Hparse).
    assert (SplitN_slash (TrimLeft path "/") 3 = ["clusters"; name; rest]) as ->.
    { apply SplitN_slash_3. by rewrite Hpath. }
    rewrite bool_decide_eq_false_2 by (cbn; intros [?|?]; done).
    cbn. by rewrite Hvalid, Hlook, Hparse.
Qed.

(** X20.  The answer of the handler depends on the cluster name alone:
    neither the number of leading slashes nor what follows the name
    changes it.  A path with fewer than three pieces, or whose first
    piece is not [clusters], is not found. *)
Theorem shardHandler_cluster_only {URL} (deps : ShardDeps URL) (attributes : option error)
    (name : string) :
  Contains name "/" = false →
  (∀ n m rest rest',
     shardHandler deps attributes
       (Nat.iter n (String "/") ("clusters" +:+ "/" +:+ name +:+ "/" +:+ rest)) =
     shardHandler deps attributes
       (Nat.iter m (String "/") ("clusters" +:+ "/" +:+ name +:+ "/" +:+ rest'))) ∧
  (∀ n, shardHandler deps attributes (Nat.iter n (String "/") ("clusters" +:+ "/" +:+ name))
        = NotFound) ∧
  (∀ n first rest, Contains first "/" = false → first ≠ "clusters" →
        first ≠ "" →
        shardHandler deps attributes
          (Nat.iter n (String "/") (first +:+ "/" +:+ name +:+ "/" +:+ rest)) = NotFound).
Proof.
  intros Hname.
  assert (∀ first, first ≠ "" → TrimLeft first "/" = first →
            Contains first "/" = false → ∀ n rest,
            SplitN_slash (TrimLeft (Nat.iter n (String "/")
                            (first +:+ "/" +:+ name +:+ "/" +:+ rest)) "/") 3 =
            [first; name; rest]) as Hsplit.
  { intros first Hne Htrim Hfirst n rest. rewrite TrimLeft_slashes.
    assert (TrimLeft (first +:+ "/" +:+ name +:+ "/" +:+ rest) "/" =
            first +:+ "/" +:+ name +:+ "/" +:+ rest) as ->.
    { destruct first as [|c first]; [done|].
      rewrite append_cons_l. cbn [TrimLeft].
      case_bool_decide as Hc; [|done].
      apply list_elem_of_singleton in Hc as ->.
      rewrite Contains_slash_cons in Hfirst. done. }
    by apply SplitN_slash_3. }
  split_and!.
  - intros n m rest rest'. unfold shardHandler.
    by rewrite !(Hsplit "clusters").
  - intros n. unfold shardHandler. rewrite TrimLeft_slashes.
    assert (SplitN_slash (TrimLeft ("clusters" +:+ "/" +:+ name) "/") 3 = ["clusters"; name])
      as ->; [|done].
    change (TrimLeft ("clusters" +:+ "/" +:+ name) "/") with ("clusters" +:+ "/" +:+ name).
    cbn [SplitN_slash].
    destruct (splitSlash_join "clusters" name eq_refl) as [-> ->].
    by rewrite Hname.
  - intros n first rest Hfirst Hne Hnonempty. unfold shardHandler.
    rewrite (Hsplit first); [|done| |done].
    + rewrite bool_decide_eq_true_2; [done|]. right. cbn. congruence.
    + destruct first as [|c first]; [done|]. cbn [TrimLeft].
      rewrite Contains_slash_cons in Hfirst. apply orb_false_iff in Hfirst as [Hc _].
      rewrite bool_decide_eq_false_2; [done|].
      intros ->%list_elem_of_singleton. done.
Qed.

(** ** The further properties on instances *)

(** X3 on an instance: the informer of [deployments], stored and not
    started, runs after [Start]. *)
Lemma Start_all_running_witness :
  wf deploymentsStored ∧
  informers (fac deploymentsStored) !! deployments = Some (mkInformer 0 deployments) ∧
  ∃ c, informerStops (fac (Start mapOrder deploymentsStored)) !! deployments = Some c ∧
       (mkInformer 0 deployments, c) ∈ goroutines (rt (Start mapOrder deploymentsStored)) ∧
       c ∉ closed (rt (Start mapOrder deploymentsStored)).
Proof.
  split; [apply wf_reachable|]. split; [reflexivity|].
  apply Start_all_running; [apply wf_reachable | reflexivity].
Defined.

(** X4 on an instance: two calls for [deployments] on a new factory. *)
Lemma InformerForResource_idempotent_witness :
  let s1 := (InformerForResource clientGo deployments initState).2 in
  InformerForResource clientGo deployments initState = (Ok (mkInformer 0 deployments), s1) ∧
  InformerForResource clientGo deployments s1 = (Ok (mkInformer 0 deployments), s1) ∧
  informers (fac s1) !! deployments = Some (mkInformer 0 deployments) ∧
  goroutines (rt s1) = goroutines (rt initState) ∧ closed (rt s1) = closed (rt initState) ∧
  informerStops (fac s1) = informerStops (fac initState) ∧
  startedInformers (fac s1) = startedInformers (fac initState) ∧
  (∀ k, k ≠ deployments → informers (fac s1) !! k = informers (fac initState) !! k).
Proof.
  split; [reflexivity|].
  apply (InformerForResource_idempotent clientGo deployments initState). reflexivity.
Defined.

(** X5 on an instance: [deployments] on a new factory, then [Start]. *)
Lemma InformerForResource_then_Start_witness :
  let s1 := (InformerForResource clientGo deployments initState).2 in
  informerStops (fac s1) !! deployments = None ∧
  (∀ inf' c, (inf', c) ∈ goroutines (rt s1) → infGVR inf' = deployments →
             c ∈ closed (rt s1)) ∧
  ∃ c, informerStops (fac (Start mapOrder s1)) !! deployments = Some c ∧
       (mkInformer 0 deployments, c) ∈ goroutines (rt (Start mapOrder s1)) ∧
       c ∉ closed (rt (Start mapOrder s1)).
Proof.
  apply (InformerForResource_then_Start mapOrder clientGo deployments initState);
    [apply wf_initState | reflexivity | reflexivity].
Defined.

(** X6 on an instance: [customresourcedefinitions] and [deployments]
    run, and the one workspace reports [pods] and [pods/log]. *)
Lemma discoverTypes_ok_informers_witness :
  let s' := (discoverTypes mapOrder clientGo subresourceDiscovery crdRunning).2 in
  discoverTypes mapOrder clientGo subresourceDiscovery crdRunning = (None, s') ∧
  ∀ k, is_Some (informers (fac s') !! k) ↔
       (∃ ai, reports clientGo subresourceDiscovery k ai ∧ observable ai) ∨
       (pinned k = true ∧ is_Some (informers (fac crdRunning) !! k)).
Proof.
  intros s'.
  assert (discoverTypes mapOrder clientGo subresourceDiscovery crdRunning = (None, s'))
    as Hrun by (vm_compute; reflexivity).
  split; [exact Hrun|].
  exact (discoverTypes_ok_informers mapOrder clientGo subresourceDiscovery crdRunning s' Hrun).
Defined.

(** X7 on an instance: two informers run and no workspace is listed. *)
Lemma discoverTypes_no_workspaces_witness :
  let s' := (discoverTypes revOrder clientGo noWorkspaces crdRunning).2 in
  ListWorkspaces noWorkspaces = Ok [] ∧
  (discoverTypes revOrder clientGo noWorkspaces crdRunning).1 = None ∧
  (∀ k, is_Some (informers (fac s') !! k) ↔
        pinned k = true ∧ is_Some (informers (fac crdRunning) !! k)) ∧
  (∀ k c, pinned k = false → is_Some (informers (fac crdRunning) !! k) →
          informerStops (fac crdRunning) !! k = Some c → c ∈ closed (rt s')) ∧
  goroutines (rt s') = goroutines (rt crdRunning).
Proof.
  split; [reflexivity|].
  apply (discoverTypes_no_workspaces revOrder clientGo noWorkspaces crdRunning). reflexivity.
Defined.

(** X10 on an instance: the first attempt fails, the second succeeds, one
    tick finds no workspace, then the context is done. *)
Lemma StartPolling_cleanup_witness :
  let attempts := [(mapOrder, secondTenantFails); (mapOrder, subresourceDiscovery)] in
  let ticks := [(revOrder, noWorkspaces)] in
  let s' := StartPolling clientGo attempts ticks mapOrder initState in
  (pollImmediate clientGo attempts initState).1 = true ∧
  (∀ inf c, (inf, c) ∈ goroutines (rt s') → c ∈ closed (rt s')) ∧
  NoDup (closed (rt s')) ∧
  fac s' = fac (tickerLoop clientGo ticks (pollImmediate clientGo attempts initState).2).
Proof.
  intros attempts ticks s'.
  assert ((pollImmediate clientGo attempts initState).1 = true) as Hpoll
    by (vm_compute; reflexivity).
  split; [exact Hpoll|].
  pose proof (StartPolling_cleanup clientGo attempts ticks mapOrder initState wf_initState)
    as Hclean.
  cbv zeta in Hclean. rewrite Hpoll in Hclean. exact Hclean.
Defined.

(** X13 on an instance: [widgets] is discovered by a new factory. *)
Lemma readiness_follows_watch_witness :
  let latest := discovered [widgets] in
  let s' := (reconcile mapOrder clientGo latest initState).2 in
  (reconcile mapOrder clientGo latest initState).1 = None ∧
  (∀ k, k ∈ (calculateInformersLockHeld mapOrder (fac initState) latest).1 →
        k ∈ (Listers revOrder s').2 ∧ (Listers revOrder s').1 !! k = None) ∧
  (∀ k, k ∈ (calculateInformersLockHeld mapOrder (fac initState) latest).2 →
        (k ∉ (Listers revOrder s').2) ∧ (Listers revOrder s').1 !! k = None) ∧
  (∀ k inf, informers (fac s') !! k = Some inf →
        let s2 := mkState (fac s') (initialSyncDone inf (rt s')) in
        (Listers revOrder s2).1 !! k = Some (ListerOf inf) ∧ k ∉ (Listers revOrder s2).2).
Proof.
  intros latest s'.
  assert ((reconcile mapOrder clientGo latest initState).1 = None) as Hok
    by (vm_compute; reflexivity).
  split; [exact Hok|].
  apply (readiness_follows_watch mapOrder revOrder clientGo latest initState);
    [reflexivity | | exact Hok].
  intros i. change (synced (rt initState)) with (∅ : gset nat).
  intros Hi. exfalso. exact (not_elem_of_empty (C := gset nat) i Hi).
Defined.

(** X15 on an instance: the index name "namespace" is registered twice on
    a new factory. *)
Lemma AddIndexers_twice_witness :
  let d1 := (AddIndexers mapOrder namespaceIndexer
               NewDynamicDiscoverySharedInformerFactory).2 in
  AddIndexers mapOrder namespaceIndexer NewDynamicDiscoverySharedInformerFactory = (None, d1) ∧
  (namespaceIndexer = ∅ → AddIndexers revOrder namespaceIndexer d1 = (None, d1)) ∧
  (namespaceIndexer ≠ ∅ →
     ∃ name, AddIndexers revOrder namespaceIndexer d1 = (Some (ErrIndexerExists name), d1) ∧
             is_Some (namespaceIndexer !! name)).
Proof.
  intros d1.
  assert (AddIndexers mapOrder namespaceIndexer NewDynamicDiscoverySharedInformerFactory =
          (None, d1)) as Hfirst by (vm_compute; reflexivity).
  split; [exact Hfirst|].
  exact (AddIndexers_twice mapOrder revOrder namespaceIndexer _ d1 Hfirst).
Defined.

(** X16 on an instance: two workspaces, listed in the two orders. *)
Lemma discover_workspace_order_witness :
  let a := mkClusterWorkspace "root" "a" in
  let b := mkClusterWorkspace "root" "b" in
  let spr := ServerPreferredResources subresourceDiscovery in
  [a; b] ≡ₚ [b; a] ∧
  match discover clientGo (mkDiscovery (Ok [a; b]) spr),
        discover clientGo (mkDiscovery (Ok [b; a]) spr) with
  | Ok latest, Ok latest' => latest = latest'
  | Err _, Err _ => True
  | _, _ => False
  end.
Proof.
  intros a b spr. split; [apply perm_swap|].
  apply (discover_workspace_order clientGo spr [a; b] [b; a]). apply perm_swap.
Defined.

(** X17 on an instance: the first pass of a new factory when the one
    workspace reports [pods] and [pods/log]. *)
Lemma discoverTypes_on_new_factory_witness :
  let s' := (discoverTypes mapOrder clientGo subresourceDiscovery initState).2 in
  discoverTypes mapOrder clientGo subresourceDiscovery initState = (None, s') ∧
  (∀ k, is_Some (informers (fac s') !! k) ↔
        ∃ ai, reports clientGo subresourceDiscovery k ai ∧ observable ai) ∧
  (∀ k inf, informers (fac s') !! k = Some inf →
     ∃ c, informerStops (fac s') !! k = Some c ∧ (inf, c) ∈ goroutines (rt s') ∧
          startedInformers (fac s') !! k = Some true) ∧
  closed (rt s') = [].
Proof.
  intros s'.
  assert (discoverTypes mapOrder clientGo subresourceDiscovery initState = (None, s'))
    as Hrun by (vm_compute; reflexivity).
  split; [exact Hrun|].
  exact (discoverTypes_on_new_factory mapOrder clientGo subresourceDiscovery s' Hrun).
Defined.

(** X20 on an instance: the cluster [root:org]. *)
Lemma shardHandler_cluster_only_witness :
  Contains "root:org" "/" = false ∧
  shardHandler oneShard None "/clusters/root:org/api/v1/pods" =
  shardHandler oneShard None "///clusters/root:org/apis" ∧
  shardHandler oneShard None "/clusters/root:org" = NotFound ∧
  shardHandler oneShard None "/services/root:org/api" = NotFound.
Proof.
  split; [reflexivity|].
  destruct (shardHandler_cluster_only oneShard None "root:org" eq_refl)
    as (Hsame & Hshort & Hother).
  split_and!.
  - exact (Hsame 1 3 "api/v1/pods" "apis").
  - exact (Hshort 1).
  - apply (Hother 1 "services" "api"); [reflexivity | discriminate | discriminate].
Defined.

(** ** Listers and shutdown *)

Lemma terminating_step cg st s : terminating (fac (step cg st s)) = terminating (fac s).
Proof.
  destruct st as [gvr|ro latest|ro|ro arg|h|inf]; cbn [step].
  - unfold informerForResourceLockHeld.
    destruct (informers (fac s) !! gvr); [done|]. cbn.
    by destruct (informerAddIndexers cg _ _).
  - rewrite <- reconcile_eq. by destruct (reconcile_frame ro cg latest s) as (_ & _ & ? & _).
  - by destruct (startLoop_spec (range ro (informers (fac s))) s (range_NoDup_fst ro _))
      as (_ & _ & _ & ? & _).
  - cbn. unfold AddIndexers. by destruct (addIndexersLoop _ _).
  - done.
  - done.
Qed.

Lemma terminating_runOps cg ops : ∀ s,
  terminating (fac (runOps cg ops s)) = terminating (fac s).
Proof.
  induction ops as [|op ops IH]; intros s; [done|].
  cbn [runOps foldl]. fold (runOps cg ops (runOp cg op s)). rewrite IH.
  destruct op as [st|ro]; cbn [runOp]; [apply terminating_step | done].
Qed.

Lemma listersLoop_synced r r' entries : ∀ listers notSynced,
  synced r = synced r' →
  listersLoop r entries listers notSynced = listersLoop r' entries listers notSynced.
Proof.
  intros listers notSynced Hsy. revert listers notSynced.
  induction entries as [|[gvr informer] rest IH]; intros listers notSynced; [done|].
  cbn [listersLoop]. unfold HasSynced. rewrite Hsy.
  by destruct (negb _); rewrite IH.
Qed.

(** C7, evaluated on the code.  [Listers] returns two empty results only
    when [d.terminating] is set, and nothing sets it: it is false after
    every sequence of operations on a new factory, the teardown of the
    polling goroutine included.  That teardown closes the stop channels
    and leaves the rest alone, so [Listers] answers after it what it
    answered before it.  On the instance: [pods] is discovered, its
    informer syncs, the polling context is done; the stop channel of
    [pods] is closed, and [Listers] still returns the lister of [pods];
    when the context is done before the sync, [pods] is still reported in
    [notSynced]. *)
Theorem Listers_after_shutdown :
  (∀ cg ops, terminating (fac (runOps cg ops initState)) = false) ∧
  (∀ ro ro' s, Listers ro' (teardown ro s) = Listers ro' s) ∧
  (closed (rt podsSyncedThenShutDown) = [0%nat] ∧
   informerStops (fac podsSyncedThenShutDown) !! pods = Some 0%nat ∧
   (Listers mapOrder podsSyncedThenShutDown).1 !! pods = Some (ListerOf (mkInformer 0 pods)) ∧
   (Listers mapOrder podsShutDownBeforeSync).2 = [pods]).
Proof.
  split_and!.
  - intros cg ops. by rewrite terminating_runOps.
  - intros ro ro' s. unfold Listers, teardown. cbn [fac rt].
    destruct (terminating (fac s)); [done|].
    apply listersLoop_synced.
    by destruct (teardownLoop_spec (range ro (informerStops (fac s))) (rt s))
      as (_ & _ & _ & _ & ->).
  - by vm_compute.
  - by vm_compute.
  - by vm_compute.
  - by vm_compute.
Qed.
